(** * DayBoard backend: tax estimator and recurring-charge detector

    A shallow embedding of
      - [backend/internal/estimate/estimate.go] (module [Estimate]) and
      - the recurring-transaction helpers of
        [backend/internal/plaid/client.go] (module [Plaid]),
    together with the properties the design document states about them.

    How the Go code is rendered:
      - an [int] is a [Z] with the 64-bit wrap-around written out
        (module [GoInt]); [/] is [Z.quot], and panics on a zero divisor
        where the divisor is a run-time value;
      - a call returns an [outcome]: a value, an error message, or a
        panic;
      - the database is a record of the answers to the three queries of
        [EstimateTaxes], which logs the queries it sends;
      - a [time.Time] is the number of a calendar day, a [float64] a
        primitive float, a [map[string][]Transaction] a [gmap], a slice
        a list, updated by index where the code does so;
      - [strings.ToLower] and the [%.2f] formatting are taken as given
        (class [GoLib]); the theorems hold for whatever they compute. *)

From Stdlib Require Import ZArith String Ascii List Lia.
From Stdlib Require Import PrimFloat SpecFloat FloatOps.
#[local] Set Warnings "-inexact-float".
From stdpp Require Import base option list sorting gmap strings pretty.

(** ** Go's [int] on a 64-bit target

    A Go [int] is kept as a [Z] in the range of [in_int64]; every
    arithmetic operation that can leave the range is followed by
    [wrap64], the two's-complement wrap-around of the hardware. *)
Module GoInt.
Local Open Scope Z_scope.

Definition min_int64 : Z := - 2 ^ 63.
Definition max_int64 : Z := 2 ^ 63 - 1.

Definition in_int64 (z : Z) : Prop := min_int64 <= z <= max_int64.

Definition wrap64 (z : Z) : Z := (z + 2 ^ 63) mod 2 ^ 64 - 2 ^ 63.

Definition add (a b : Z) : Z := wrap64 (a + b).
Definition sub (a b : Z) : Z := wrap64 (a - b).
Definition mul (a b : Z) : Z := wrap64 (a * b).

(** [a / b] for a divisor that is not zero: Go truncates towards zero
    ([Z.quot]); the only quotient that leaves the range is
    [min_int64 / -1], which wraps. *)
Definition quot (a b : Z) : Z := wrap64 (Z.quot a b).

(** The sum of a list, in [Z]. *)
Definition Zsum (l : list Z) : Z := foldr Z.add 0 l.

End GoInt.

(** ** What a Go call hands back

    [(T, error)] results and run-time panics. *)
Inductive outcome (A : Type) : Type :=
| Ok (a : A)
| Err (msg : string)
| Panic (msg : string).
Arguments Ok {A} a.
Arguments Err {A} msg.
Arguments Panic {A} msg.

Module Estimate.
Import GoInt.
Local Open Scope Z_scope.

(** *** The database, as far as [EstimateTaxes] reads it *)

(** One row of [tax_tables_federal] / [tax_tables_state], the three
    columns the bracket queries select. *)
Record Bracket : Type := mkBracket {
  bracket_low : Z;
  bracket_high : Z;
  rate_bps : Z;
}.

(** [rows.Next()] followed by [rows.Scan(&low, &high, &rateBps)]: the
    row either scans into three ints or the scan reports an error. *)
Inductive ScanRow : Type :=
| Scanned (b : Bracket)
| ScanErr (msg : string).

(** A query either yields its value or fails with the driver's error. *)
Inductive fetched (A : Type) : Type :=
| Got (a : A)
| Failed (msg : string).
Arguments Got {A} a.
Arguments Failed {A} msg.

(** The three statements [EstimateTaxes] sends, by their arguments. *)
Inductive Query : Type :=
| QStdDeduction (year : Z)
| QFederal (year : Z)
| QState (year : Z) (state : string).

Record DB : Type := mkDB {
  (** [SELECT DISTINCT std_deduction_single ... WHERE year = $1 LIMIT 1],
      scanned into an int *)
  std_deduction_single : Z -> fetched Z;
  (** [SELECT bracket_low, bracket_high, rate_bps FROM tax_tables_federal
      WHERE year = $1 ORDER BY bracket_low ASC] *)
  federal_rows : Z -> fetched (list ScanRow);
  (** the same over [tax_tables_state WHERE year = $1 AND state = $2] *)
  state_rows : Z -> string -> fetched (list ScanRow);
}.

(** *** A computation that logs the queries it sends *)

Definition M (A : Type) : Type := (list Query * outcome A)%type.

Definition ret {A} (a : A) : M A := ([], Ok a).

Definition fail {A} (msg : string) : M A := ([], Err msg).

Definition bind {A B} (k : A -> M B) (m : M A) : M B :=
  match m with
  | (t, Ok a) => let '(t', r) := k a in (t ++ t', r)
  | (t, Err e) => (t, Err e)
  | (t, Panic e) => (t, Panic e)
  end.

#[export] Instance M_ret : MRet M := @ret.
#[export] Instance M_bind : MBind M := @bind.

(** send [q]; [wrapErr] is what the caller makes of the driver's error *)
Definition query {A} (q : Query) (wrapErr : string -> string)
    (r : fetched A) : M A :=
  match r with
  | Got a => ([q], Ok a)
  | Failed e => ([q], Err (wrapErr e))
  end.

Definition lift {A} (o : outcome A) : M A := ([], o).

(** [a / b] with a divisor only known at run time: Go panics on zero. *)
Definition div (a b : Z) : outcome Z :=
  if b =? 0 then Panic "runtime error: integer divide by zero"
  else Ok (quot a b).

(** *** estimate.go *)

Record TaxResult : Type := mkTaxResult {
  FederalCents : Z;
  StateCents : Z;
  FicaCents : Z;
  PerPaycheckNetCents : Z;
  TermNetCents : Z;
}.

(** [func min(a, b int) int] *)
Definition min (a b : Z) : Z := if a <? b then a else b.

(** The loop variables of a bracket walk. [segments] is a ghost field:
    the [segment] values of the iterations run so far, in order. *)
Record walk : Type := mkWalk {
  tax : Z;
  remaining : Z;
  segments : list Z;
}.

(** The [for rows.Next() { ... }] loop. The source has it twice, once
    over the federal rows and once over the state rows, with the same
    body. *)
Fixpoint bracketLoop (taxableIncome : Z) (rows : list ScanRow) (w : walk)
    : outcome walk :=
  match rows with
  | [] => Ok w
  | ScanErr e :: _ => Err e
  | Scanned (mkBracket low high rateBps) :: rest =>
      if remaining w <=? 0 then Ok w
      else
        let upperBound := if high =? 0 then taxableIncome else high in
        let segment := min (remaining w) (sub upperBound low) in
        bracketLoop taxableIncome rest
          {| tax := add (tax w) (quot (mul segment rateBps) 10000);
             remaining := sub (remaining w) segment;
             segments := segments w ++ [segment] |}
  end.

(** [var tax int; remaining := taxableIncome] and then the loop *)
Definition bracketWalk (taxableIncome : Z) (rows : list ScanRow)
    : outcome walk :=
  bracketLoop taxableIncome rows
    {| tax := 0; remaining := taxableIncome; segments := [] |}.

(** [switch payFreq { ... }] *)
Definition paychecks (payFreq : string) (termWeeks : Z) : Z :=
  if String.eqb payFreq "weekly" then termWeeks
  else if String.eqb payFreq "biweekly" then quot termWeeks 2
  else if String.eqb payFreq "monthly" then quot termWeeks 4
  else quot termWeeks 2.

Definition clampTaxable (incomeCents stdDeduction : Z) : Z :=
  let taxableIncome := sub incomeCents stdDeduction in
  if taxableIncome <? 0 then 0 else taxableIncome.

Definition EstimateTaxes (d : DB) (incomeCents : Z) (state : string)
    (filingStatus : string) (year : Z) (payFreq : string) (termWeeks : Z)
    : M TaxResult :=
  stdDeduction ←
    (if String.eqb filingStatus "single" then
       query (QStdDeduction year)
         (fun e => "failed to fetch std deduction: " +:+ e)
         (std_deduction_single d year)
     else if String.eqb filingStatus "married" then
       fail "married filing jointly not yet supported"
     else
       fail ("unsupported filing status: " +:+ filingStatus));
  let taxableIncome := clampTaxable incomeCents stdDeduction in
  rows ← query (QFederal year) id (federal_rows d year);
  fed ← lift (bracketWalk taxableIncome rows);
  let federalTax := tax fed in
  stateTax ←
    (if String.eqb state "" then ret 0
     else
       rows ← query (QState year state) id (state_rows d year state);
       st ← lift (bracketWalk taxableIncome rows);
       ret (tax st));
  let ficaTax := quot (mul incomeCents 765) 10000 in
  let checks := paychecks payFreq termWeeks in
  let totalTax := add (add federalTax stateTax) ficaTax in
  let netAnnual := sub incomeCents totalTax in
  perPay ← lift (if 0 <? checks then div netAnnual checks else Ok 0);
  ret {| FederalCents := federalTax;
         StateCents := stateTax;
         FicaCents := ficaTax;
         PerPaycheckNetCents := perPay;
         TermNetCents := netAnnual |}.

(** *** The bracket tables of the data model *)

(** [P] holds of every two neighbouring rows. *)
Fixpoint consecutive (P : Bracket -> Bracket -> Prop) (tbl : list Bracket)
    : Prop :=
  match tbl with
  | b1 :: (b2 :: _) as rest => P b1 b2 /\ consecutive P rest
  | _ => True
  end.

(** Sorted ascending by low bound, covering [0, oo) with no gap and no
    overlap: the first low bound is 0, every low bound is the high bound
    of the row before, and the last high bound is the 0 sentinel. *)
Definition covers (tbl : list Bracket) : Prop :=
  bracket_low <$> head tbl = Some 0 /\
  consecutive (fun b1 b2 => bracket_low b1 <= bracket_low b2) tbl /\
  consecutive (fun b1 b2 => bracket_low b2 = bracket_high b1) tbl /\
  bracket_high <$> last tbl = Some 0.

(** The same table as the loop meets it: the rows from one with low
    bound [L] on, each starting where the row before ended, the last
    one open-ended. *)
Fixpoint chained (L : Z) (tbl : list Bracket) : Prop :=
  match tbl with
  | [] => False
  | b :: rest =>
      bracket_low b = L /\
      match rest with
      | [] => bracket_high b = 0
      | _ => L <= bracket_high b /\ chained (bracket_high b) rest
      end
  end.

(** The columns are Go ints. *)
Definition fits (tbl : list Bracket) : Prop :=
  Forall (fun b => in_int64 (bracket_low b) /\ in_int64 (bracket_high b)
                   /\ in_int64 (rate_bps b)) tbl.

(** Rates between 0% and 100%. *)
Definition rates_0_100 (tbl : list Bracket) : Prop :=
  Forall (fun b => 0 <= rate_bps b <= 10000) tbl.

(** A table is either absent (no row for the year, or for the state) or
    covers [0, oo). *)
Definition usable (tbl : list Bracket) : Prop :=
  (tbl = [] \/ covers tbl) /\ fits tbl /\ rates_0_100 tbl.

(** The brackets of a database answer whose rows all scan. *)
Definition scans (r : fetched (list ScanRow)) (tbl : list Bracket) : Prop :=
  r = Got (Scanned <$> tbl).

(** [federalCents + stateCents + ficaCents] *)
Definition totalTax (r : TaxResult) : Z :=
  FederalCents r + StateCents r + FicaCents r.

(** An income of 42 trillion dollars, in cents. *)
Definition hugeIncome : Z := 4200000000000000.

(** The 2024 federal brackets for a single filer, in cents, up to the
    22% bracket, which is left open-ended here. *)
Definition federal2024 : list Bracket :=
  [ mkBracket 0 1160000 1000;
    mkBracket 1160000 4715000 1200;
    mkBracket 4715000 0 2200 ].

(** A database whose only federal row starts at 100 cents: the table
    leaves [0, 100) uncovered. *)
Definition gapDB : DB :=
  {| std_deduction_single := fun _ => Got 0;
     federal_rows := fun _ => Got [Scanned (mkBracket 100 0 10000)];
     state_rows := fun _ _ => Got [] |}.

(** A database with a negative rate (a credit of 50%). *)
Definition creditDB : DB :=
  {| std_deduction_single := fun _ => Got 0;
     federal_rows := fun _ => Got [Scanned (mkBracket 0 0 (-5000))];
     state_rows := fun _ _ => Got [] |}.

(** The database of scenario A: one flat federal bracket and one flat
    state bracket, whatever the year and the state. *)
Definition scenarioDB : DB :=
  {| std_deduction_single := fun _ => Got 1385000;
     federal_rows := fun _ => Got [Scanned (mkBracket 0 0 2200)];
     state_rows := fun _ _ => Got [Scanned (mkBracket 0 0 500)] |}.

End Estimate.

Module Plaid.
Import GoInt.
Local Open Scope Z_scope.

(** *** What the detector uses of Go's library *)

(** [time.Time]. Every [Transaction.Date] is the result of
    [time.Parse("2006-01-02", ...)], midnight UTC of a calendar day (the
    zero time, 1 January of year 1, when the parse fails), and is kept
    as the number of that day. *)
Definition Time : Type := Z.

(** [t.Before(u)] *)
Definition Before (t u : Time) : bool := t <? u.

(** The longest [time.Duration], in whole days: [Sub] saturates at
    +-(2^63 - 1) nanoseconds, a little under 106752 days. *)
Definition maxDurationDays : Z := 106751.

(** [int(t.Sub(u).Hours() / 24)]: between two midnights the duration is
    a whole number of days, of which [Hours() / 24] and the conversion
    to int lose nothing; a saturated duration comes out as 106751 days
    (the fraction is cut off). *)
Definition daysSince (t u : Time) : Z :=
  Z.max (- maxDurationDays) (Z.min maxDurationDays (t - u)).

(** [t.AddDate(0, 0, days)] *)
Definition AddDays (t : Time) (days : Z) : Time := t + days.

(** [strings.ToLower] and the [%.2f] verb of [fmt.Sprintf]. *)
Class GoLib : Type := {
  ToLower : string -> string;
  Sprintf_2f : float -> string;
}.

(** *** client.go *)

Record Transaction : Type := mkTransaction {
  ID : string;
  AccountID : string;
  Amount : float;
  Date : Time;
  Name : string;
  MerchantName : string;
  Category : list string;
  Pending : bool;
  PaymentChannel : string;
}.

(** The fields [MerchantName], [Amount] and [Category] carry the prefix
    [Sub] here, [Transaction] having fields of the same names. *)
Record RecurringSubscription : Type := mkRecurringSubscription {
  SubMerchantName : string;
  SubAmount : float;
  Frequency : string;
  LastCharge : Time;
  NextDue : Time;
  SubCategory : list string;
}.

(** [func abs(x int) int] *)
Definition abs (x : Z) : Z := if x <? 0 then wrap64 (- x) else x.

(** [if transactions[i].Date.Before(transactions[j].Date) { swap }]; the
    slice is updated in place. Both loops keep [i] and [j] below
    [len(transactions)], so the index expressions never panic; out of
    range the model leaves the slice alone. *)
Definition swapIfBefore (i j : nat) (a : list Transaction)
    : list Transaction :=
  match a !! i, a !! j with
  | Some x, Some y =>
      if Before (Date x) (Date y) then <[i := y]> (<[j := x]> a) else a
  | _, _ => a
  end.

(** [for j := i + 1; j < len(transactions); j++ { ... }] *)
Definition sortInner (i : nat) (a : list Transaction) : list Transaction :=
  foldl (fun a j => swapIfBefore i j a) a (seq (S i) (length a - S i)).

(** [for i := 0; i < len(transactions)-1; i++ { ... }] *)
Definition sortByDate (a : list Transaction) : list Transaction :=
  foldl (fun a i => sortInner i a) a (seq 0 (length a - 1)).

(** [for i := 1; i < len(transactions); i++ { days := ...; append }] *)
Fixpoint intervals (a : list Transaction) : list Z :=
  match a with
  | prev :: (cur :: _) as rest =>
      daysSince (Date prev) (Date cur) :: intervals rest
  | _ => []
  end.

(** [avgInterval := 0; for ... { avgInterval += interval };
    avgInterval /= len(intervals)], run where [len(intervals) >= 1]. *)
Definition avgInterval (ivs : list Z) : Z :=
  quot (foldl add 0 ivs) (Z.of_nat (length ivs)).

(** [isRecurring] sorts the slice it is given in place, and the caller
    goes on to read that slice: the slice as the call leaves it is
    returned next to the verdict. *)
Definition isRecurring (transactions : list Transaction)
    : list Transaction * bool :=
  if (length transactions <? 2)%nat then (transactions, false)
  else
    let transactions := sortByDate transactions in
    let ivs := intervals transactions in
    if (length ivs <? 1)%nat then (transactions, false)
    else
      let avg := avgInterval ivs in
      (transactions,
       forallb (fun interval => negb (5 <? abs (sub interval avg))) ivs).

(** [totalDays / (len(transactions) - 1)] of [determineFrequency] and
    [predictNextDue]; [first] is [transactions[0]], [last] is
    [transactions[len(transactions)-1]] and [len] is [len(transactions)]. *)
Definition avgDays (first last : Transaction) (len : nat) : Z :=
  let totalDays := daysSince (Date first) (Date last) in
  quot totalDays (Z.of_nat len - 1).

Definition determineFrequency (transactions : list Transaction) : string :=
  match transactions, last transactions with
  | first :: _ :: _, Some lastT =>
      let avgDays := avgDays first lastT (length transactions) in
      if avgDays <=? 8 then "weekly"
      else if avgDays <=? 35 then "monthly"
      else if avgDays <=? 95 then "quarterly"
      else "yearly"
  | _, _ => "unknown"
  end.

(** [now] is what [time.Now()] returns. *)
Definition predictNextDue (now : Time) (transactions : list Transaction)
    : Time :=
  match transactions, last transactions with
  | first :: _ :: _, Some lastT =>
      AddDays (Date first) (avgDays first lastT (length transactions))
  | _, _ => now
  end.

Section Detect.
Context `{GoLib}.

(** [fmt.Sprintf("%s_%.2f", strings.ToLower(txn.MerchantName), txn.Amount)] *)
Definition groupKey (txn : Transaction) : string :=
  ToLower (MerchantName txn) +:+ "_" +:+ Sprintf_2f (Amount txn).

(** [txn.Pending || txn.Amount < 0] *)
Definition skipped (txn : Transaction) : bool :=
  Pending txn || PrimFloat.ltb (Amount txn) 0%float.

(** The body of the grouping loop;
    [groups[key] = append(groups[key], txn)] reads nil for a new key. *)
Definition addToGroup (groups : gmap string (list Transaction))
    (txn : Transaction) : gmap string (list Transaction) :=
  if skipped txn then groups
  else
    let key := groupKey txn in
    <[key := default [] (groups !! key) ++ [txn]]> groups.

Definition groupTransactions (transactions : list Transaction)
    : gmap string (list Transaction) :=
  foldl addToGroup ∅ transactions.

(** The body of [for _, txns := range groups { ... }]: the subscription
    appended for a group, if any. *)
Definition detectGroup (now : Time) (txns : list Transaction)
    : option RecurringSubscription :=
  if (length txns <? 2)%nat then None
  else
    let '(txns, recurring) := isRecurring txns in
    if recurring then
      match txns with
      | first :: _ =>
          Some {| SubMerchantName := MerchantName first;
                  SubAmount := Amount first;
                  Frequency := determineFrequency txns;
                  LastCharge := Date first;
                  NextDue := predictNextDue now txns;
                  SubCategory := Category first |}
      | [] => None
      end
    else None.

(** Go leaves the order in which [range] visits a map open; the groups
    are visited here in the order of [map_to_list], and nothing below
    depends on which order that is. [now] stands for the clock that
    [predictNextDue] reads. *)
Definition DetectRecurringTransactions (now : Time)
    (transactions : list Transaction) : list RecurringSubscription :=
  omap (fun kv => detectGroup now (snd kv))
       (map_to_list (groupTransactions transactions)).

End Detect.

(** *** The sort, as it acts on the slice from index [i] on *)

(** One run of the inner loop: [cur] is [transactions[i]], [rest] the
    elements after it; the latest date ends up at [i]. *)
Fixpoint sortPass (cur : Transaction) (rest : list Transaction)
    : Transaction * list Transaction :=
  match rest with
  | [] => (cur, [])
  | x :: rest =>
      if Before (Date cur) (Date x)
      then let '(m, r) := sortPass x rest in (m, cur :: r)
      else let '(m, r) := sortPass cur rest in (m, x :: r)
  end.

(** [n] runs of the outer loop. *)
Fixpoint sortPasses (n : nat) (a : list Transaction) : list Transaction :=
  match n, a with
  | S n, cur :: rest =>
      let '(m, r) := sortPass cur rest in m :: sortPasses n r
  | _, _ => a
  end.

(** No slice of transactions is longer than this: a [Transaction] takes
    more than a hundred bytes, and the Go runtime does not allocate
    beyond 2^48 bytes. *)
Definition maxLen : Z := 2 ^ 42.

(** A gap between two transactions of a slice sorted latest first. *)
Definition gapBound (g : Z) : Prop := 0 <= g <= maxDurationDays.

(** Latest first. *)
Definition latestFirst (a : list Transaction) : Prop :=
  StronglySorted (fun x y => Date y <= Date x) a.

(** *** An instance of the library, to run examples *)

Definition lowerAscii (c : ascii) : ascii :=
  let n := nat_of_ascii c in
  if ((65 <=? n) && (n <=? 90))%nat then ascii_of_nat (n + 32) else c.

Fixpoint lowerString (s : string) : string :=
  match s with
  | EmptyString => EmptyString
  | String c s => String (lowerAscii c) (lowerString s)
  end.

(** [x * 100] rounded to the nearest integer, ties to even, for
    [x = m * 2^e]. *)
Definition roundCents (m : positive) (e : Z) : Z :=
  if 0 <=? e then Z.pos m * 2 ^ e * 100
  else
    let den := 2 ^ (- e) in
    let q := (Z.pos m * 100) / den in
    let r := (Z.pos m * 100) mod den in
    if den <? 2 * r then q + 1
    else if (den =? 2 * r) && Z.odd q then q + 1
    else q.

Definition twoDigits (n : Z) : string :=
  if n <? 10 then "0" +:+ pretty n else pretty n.

Definition format2f (x : float) : string :=
  match Prim2SF x with
  | S754_nan => "NaN"
  | S754_infinity false => "+Inf"
  | S754_infinity true => "-Inf"
  | S754_zero s => (if s then "-0.00" else "0.00")
  | S754_finite s m e =>
      let n := roundCents m e in
      (if s then "-" else "") +:+ pretty (n / 100) +:+ "."
        +:+ twoDigits (n mod 100)
  end.

(** ASCII merchant names and finite amounts. *)
Definition asciiLib : GoLib :=
  {| ToLower := lowerString; Sprintf_2f := format2f |}.

Definition charge (id : string) (merchant : string) (amount : float)
    (day : Time) : Transaction :=
  {| ID := id; AccountID := "acc"; Amount := amount; Date := day;
     Name := merchant; MerchantName := merchant;
     Category := ["Service"; "Subscription"]; Pending := false;
     PaymentChannel := "online" |}.

(** A month of card history: three Spotify charges 30 days apart, two
    Netflix charges a week apart, one gym fee, one refund and one
    pending charge. *)
Definition history : list Transaction :=
  [ charge "t1" "Spotify" 9.99%float 19000;
    charge "t2" "Netflix" 15.49%float 19010;
    charge "t3" "SPOTIFY" 9.99%float 19060;
    charge "t4" "Gym" 40%float 19012;
    charge "t5" "spotify" 9.99%float 19030;
    charge "t6" "Netflix" 15.49%float 19017;
    charge "t7" "Airline" (-120)%float 19020;
    {| ID := "t8"; AccountID := "acc"; Amount := 9.99%float; Date := 19061;
       Name := "Spotify"; MerchantName := "Spotify"; Category := [];
       Pending := true; PaymentChannel := "online" |} ].

Definition spotifyGroup : list Transaction :=
  [ charge "t1" "Spotify" 9.99%float 19000;
    charge "t3" "SPOTIFY" 9.99%float 19060;
    charge "t5" "spotify" 9.99%float 19030 ].

(** Four charges of one merchant, the last two on the same day: latest
    first, they are 0, 8 and 9 days apart. *)
Definition cafeHistory : list Transaction :=
  [ charge "c1" "Cafe" 4%float 19000;
    charge "c2" "Cafe" 4%float 19009;
    charge "c3" "Cafe" 4%float 19017;
    charge "c4" "Cafe" 4%float 19017 ].

Definition spotifySubscription : RecurringSubscription :=
  {| SubMerchantName := "SPOTIFY"; SubAmount := 9.99%float;
     Frequency := "monthly"; LastCharge := 19060; NextDue := 19090;
     SubCategory := ["Service"; "Subscription"] |}.

End Plaid.

(** ** The two handlers of [POST /api/v1/estimate/taxes] in
    [backend/cmd/server/main.go] *)
Module Server.
Import GoInt Estimate.
Local Open Scope Z_scope.

(** The JSON body [{incomeCents, state, filingStatus, payFreq, termWeeks}]. *)
Record TaxBody : Type := mkTaxBody {
  IncomeCents : Z;
  State : string;
  FilingStatus : string;
  PayFreq : string;
  TermWeeks : Z;
}.

(** What [c.JSON] writes: [gin.H{"error": msg}] or the five fields of a
    tax result; nothing when [gin.Recovery] answers for a panic. *)
Inductive Payload : Type :=
| ErrorJSON (msg : string)
| ResultJSON (r : TaxResult)
| NoBody.

Record Response : Type := mkResponse {
  status : Z;
  payload : Payload;
}.

Definition StatusOK : Z := 200.
Definition StatusBadRequest : Z := 400.
Definition StatusInternalServerError : Z := 500.

(** The handler registered when [DEMO_MODE] is off. [bound] is the
    outcome of [c.BindJSON(&body)], [year] is [time.Now().Year()]; the
    router runs under [gin.Recovery()], which turns a panic of the
    handler into a 500. *)
Definition taxHandler (d : DB) (year : Z) (bound : fetched TaxBody)
    : list Query * Response :=
  match bound with
  | Failed e => ([], mkResponse StatusBadRequest (ErrorJSON e))
  | Got body =>
      let '(log, res) :=
        EstimateTaxes d (IncomeCents body) (State body) (FilingStatus body)
          year (PayFreq body) (TermWeeks body) in
      (log,
       match res with
       | Ok r => mkResponse StatusOK (ResultJSON r)
       | Err e => mkResponse StatusBadRequest (ErrorJSON e)
       | Panic _ => mkResponse StatusInternalServerError NoBody
       end)
  end.

(** The computation of the handler registered in demo mode: a standard
    deduction of 13,850 dollars and flat rates of 22% and 5%. *)
Definition demoTaxes (body : TaxBody) : outcome TaxResult :=
  let stdDeduction := 1385000 in
  let taxable := sub (IncomeCents body) stdDeduction in
  let taxable := if taxable <? 0 then 0 else taxable in
  let federal := quot (mul taxable 22) 100 in
  let state := quot (mul taxable 5) 100 in
  let fica := quot (mul (IncomeCents body) 765) 10000 in
  let totalTax := add (add federal state) fica in
  let netAnnual := sub (IncomeCents body) totalTax in
  let checks :=
    if String.eqb (PayFreq body) "weekly" then TermWeeks body
    else if String.eqb (PayFreq body) "biweekly" then quot (TermWeeks body) 2
    else if String.eqb (PayFreq body) "monthly" then quot (TermWeeks body) 4
    else quot (TermWeeks body) 2 in
  match (if 0 <? checks then div netAnnual checks else Ok 0) with
  | Ok perPay =>
      Ok {| FederalCents := federal;
            StateCents := state;
            FicaCents := fica;
            PerPaycheckNetCents := perPay;
            TermNetCents := netAnnual |}
  | Err e => Err e
  | Panic e => Panic e
  end.

Definition demoTaxHandler (bound : fetched TaxBody) : Response :=
  match bound with
  | Failed e => mkResponse StatusBadRequest (ErrorJSON e)
  | Got body =>
      match demoTaxes body with
      | Ok r => mkResponse StatusOK (ResultJSON r)
      | Err e => mkResponse StatusBadRequest (ErrorJSON e)
      | Panic _ => mkResponse StatusInternalServerError NoBody
      end
  end.

End Server.

(** ** Storing what a sync finds: [syncAccountsAndTransactions] and
    [frequencyToDays] of the Plaid handlers, [CreateSubscription] of
    [backend/internal/store/store.go] *)
Module Sync.
Import GoInt Estimate Plaid.
Local Open Scope Z_scope.

Definition frequencyToDays (frequency : string) : Z :=
  if String.eqb frequency "weekly" then 7
  else if String.eqb frequency "monthly" then 30
  else if String.eqb frequency "quarterly" then 90
  else if String.eqb frequency "yearly" then 365
  else 30.

(** [store.Subscription], without its [ID] (a fresh UUID). *)
Record Subscription : Type := mkSubscription {
  Merchant : string;
  AmountCents : Z;
  CadenceDays : Z;
  NextDue : option Time;
  Source : string;
  IsActive : bool;
}.

(** The two statements a sync sends to the database, with their
    arguments; the user id is the same throughout and is left out, as
    is the fresh id of a subscription. An inserted subscription has
    ['manual'] and [true] for its source and activity in the statement
    itself. *)
Inductive Stmt : Type :=
| InsertTransaction (source ext_id : string) (txn_date : Time)
    (merchant : string) (amount_cents : Z) (category : list string)
| InsertSubscription (merchant : string) (amount_cents cadence_days : Z)
    (next_due : option Time).

Section Sync.
Context `{GoLib}.

(** Go's conversion [int(x)] of a [float64]. *)
Variable truncate : float -> Z.

(** The database: whether a statement fails, and with what error, given
    the statements sent before it. *)
Variable exec : list Stmt -> Stmt -> option string.

(** [d.ExecContext]: the statement is sent, and its error handed back. *)
Definition ExecContext (log : list Stmt) (stmt : Stmt)
    : list Stmt * option string :=
  (log ++ [stmt], exec log stmt).

Definition invalid (s : Subscription) : bool :=
  String.eqb (Merchant s) "" || (AmountCents s <=? 0) || (CadenceDays s <=? 0).

Definition subscriptionInsert (s : Subscription) : Stmt :=
  InsertSubscription (Merchant s) (AmountCents s) (CadenceDays s) (NextDue s).

Definition CreateSubscription (log : list Stmt) (s : Subscription)
    : list Stmt * outcome Subscription :=
  if invalid s then (log, Err "invalid subscription fields")
  else
    let '(log, err) := ExecContext log (subscriptionInsert s) in
    match err with
    | Some e => (log, Err e)
    | None =>
        (log, Ok {| Merchant := Merchant s;
                    AmountCents := AmountCents s;
                    CadenceDays := CadenceDays s;
                    NextDue := NextDue s;
                    Source := "manual";
                    IsActive := true |})
    end.

Definition transactionInsert (txn : Transaction) : Stmt :=
  InsertTransaction "plaid" (ID txn) (Date txn) (MerchantName txn)
    (truncate (PrimFloat.mul (Amount txn) 100%float)) (Category txn).

(** The first loop: the first failing insert ends the sync. *)
Fixpoint storeTransactions (log : list Stmt) (transactions : list Transaction)
    : list Stmt * option string :=
  match transactions with
  | [] => (log, None)
  | txn :: rest =>
      let '(log, err) := ExecContext log (transactionInsert txn) in
      match err with
      | Some e => (log, Some e)
      | None => storeTransactions log rest
      end
  end.

Definition toSubscription (sub : RecurringSubscription) : Subscription :=
  {| Merchant := SubMerchantName sub;
     AmountCents := truncate (PrimFloat.mul (SubAmount sub) 100%float);
     CadenceDays := frequencyToDays (Frequency sub);
     NextDue := Some (Plaid.NextDue sub);
     Source := "plaid";
     IsActive := true |}.

(** The second loop: an error of [CreateSubscription] is dropped. *)
Fixpoint storeSubscriptions (log : list Stmt)
    (subscriptions : list RecurringSubscription) : list Stmt :=
  match subscriptions with
  | [] => log
  | sub :: rest =>
      let '(log, _) := CreateSubscription log (toSubscription sub) in
      storeSubscriptions log rest
  end.

(** [got] is what [GetTransactions] returned, [now] what [time.Now()]
    returns during detection; the result is the statements sent and the
    error returned ([None] for [nil]). *)
Definition syncAccountsAndTransactions (now : Time) (log : list Stmt)
    (got : fetched (list Transaction)) : list Stmt * option string :=
  match got with
  | Failed e => (log, Some e)
  | Got transactions =>
      let '(log, err) := storeTransactions log transactions in
      match err with
      | Some e => (log, Some e)
      | None =>
          let subscriptions := DetectRecurringTransactions now transactions in
          (storeSubscriptions log subscriptions, None)
      end
  end.

End Sync.

(** A database that stores transactions and refuses subscriptions. *)
Definition refusingSubscriptions (log : list Stmt) (stmt : Stmt)
    : option string :=
  match stmt with
  | InsertTransaction _ _ _ _ _ _ => None
  | InsertSubscription _ _ _ _ => Some "relation subscriptions does not exist"
  end.

(** A database that fails from the third statement on. *)
Definition failingThird (log : list Stmt) (stmt : Stmt) : option string :=
  if (length log <? 2)%nat then None else Some "connection lost".

(** [int(x)] on the amounts of the examples: the whole part, read off
    the binary expansion. *)
Definition truncateFloat (x : float) : Z :=
  match Prim2SF x with
  | S754_finite s m e =>
      let v := if 0 <=? e then Z.shiftl (Z.pos m) e
               else Z.shiftr (Z.pos m) (- e) in
      if s then - v else v
  | _ => 0
  end.

End Sync.

(** * Properties *)

Module GoIntFacts.
Import GoInt.
Local Open Scope Z_scope.

Lemma wrap64_id z : in_int64 z -> wrap64 z = z.
Proof.
  unfold in_int64, min_int64, max_int64, wrap64. intros H.
  rewrite Z.mod_small; lia.
Qed.

Lemma wrap64_range z : in_int64 (wrap64 z).
Proof.
  unfold in_int64, min_int64, max_int64, wrap64.
  pose proof (Z.mod_pos_bound (z + 2 ^ 63) (2 ^ 64)). lia.
Qed.

Lemma quot_nonneg a b :
  0 <= a -> a <= max_int64 -> 0 < b -> quot a b = a / b.
Proof.
  intros Ha Hm Hb. unfold quot.
  rewrite Z.quot_div_nonneg by lia.
  apply wrap64_id. unfold in_int64, min_int64, max_int64 in *.
  pose proof (Z.div_pos a b Ha Hb).
  pose proof (Z.div_le_upper_bound a b a Hb). nia.
Qed.

Lemma quot_id a b : in_int64 a -> 0 < b -> quot a b = Z.quot a b.
Proof.
  intros Ha Hb. unfold quot. apply wrap64_id.
  unfold in_int64, min_int64, max_int64 in *.
  destruct (Z_le_gt_dec 0 a).
  - pose proof (Z.quot_pos a b). pose proof (Z.quot_le_upper_bound a b a).
    nia.
  - pose proof (Z.quot_opp_l a b ltac:(lia)).
    pose proof (Z.quot_pos (- a) b).
    pose proof (Z.quot_le_upper_bound (- a) b (- a)). nia.
Qed.

End GoIntFacts.

Module EstimateFacts.
Import GoInt GoIntFacts Estimate.
Local Open Scope Z_scope.

Example scenario_A_runs :
  EstimateTaxes scenarioDB 5200000 "CA" "single" 2024 "biweekly" 12
  = ([QStdDeduction 2024; QFederal 2024; QState 2024 "CA"],
     Ok (mkTaxResult 839300 190750 397800 628691 3772150)).
Proof. vm_compute. reflexivity. Qed.

Lemma snd_bind {A B} (k : A -> M B) (m : M A) :
  snd (x ← m; k x)
  = match snd m with
    | Ok a => snd (k a)
    | Err e => Err e
    | Panic e => Panic e
    end.
Proof.
  unfold mbind, M_bind, bind. destruct m as [t [a|e|e]]; try reflexivity.
  simpl. destruct (k a); reflexivity.
Qed.

Lemma snd_query_got {A} q f (a : A) : snd (query q f (Got a)) = Ok a.
Proof. reflexivity. Qed.

Lemma snd_query_failed {A} q f e :
  snd (@query A q f (Failed e)) = Err (f e).
Proof. reflexivity. Qed.

Lemma snd_fail {A} e : snd (@fail A e) = Err e.
Proof. reflexivity. Qed.

Lemma snd_lift {A} (o : outcome A) : snd (lift o) = o.
Proof. reflexivity. Qed.

Lemma snd_ret {A} (a : A) : snd (ret a) = Ok a.
Proof. reflexivity. Qed.

Create Rewrite HintDb estimate.
#[local] Hint Rewrite @snd_bind @snd_query_got @snd_query_failed @snd_fail
  @snd_lift @snd_ret : estimate.

(** run the monadic plumbing of a goal about [snd (EstimateTaxes ...)] *)
Ltac run_estimate := repeat (autorewrite with estimate; cbv beta iota zeta).

Lemma bracketLoop_no_panic T rows w msg :
  bracketLoop T rows w <> Panic msg.
Proof.
  revert w. induction rows as [|[[lo hi r]|e] rows IH]; intros w; simpl.
  - discriminate.
  - destruct (remaining w <=? 0); [discriminate | apply IH].
  - discriminate.
Qed.


Lemma perPay_ok net checks :
  exists p, (if 0 <? checks then div net checks else Ok 0) = Ok p
            /\ (checks <= 0 -> p = 0).
Proof.
  destruct (0 <? checks) eqn:E.
  - apply Z.ltb_lt in E. unfold div.
    destruct (checks =? 0) eqn:E0; [apply Z.eqb_eq in E0; lia|].
    eexists; split; [reflexivity | lia].
  - eexists; split; [reflexivity | reflexivity].
Qed.

(** What [EstimateTaxes] returns for a single filer once the three
    look-ups have gone through. *)
Lemma EstimateTaxes_single d income state year payFreq termWeeks sd
      frows fw st :
  std_deduction_single d year = Got sd ->
  federal_rows d year = Got frows ->
  bracketWalk (clampTaxable income sd) frows = Ok fw ->
  (state = "" /\ st = 0 \/
   state <> "" /\ exists srows sw,
     state_rows d year state = Got srows /\
     bracketWalk (clampTaxable income sd) srows = Ok sw /\ st = tax sw) ->
  exists p,
    let net := sub income (add (add (tax fw) st)
                                (quot (mul income 765) 10000)) in
    (if 0 <? paychecks payFreq termWeeks
     then div net (paychecks payFreq termWeeks) else Ok 0) = Ok p /\
    snd (EstimateTaxes d income state "single" year payFreq termWeeks)
    = Ok {| FederalCents := tax fw;
            StateCents := st;
            FicaCents := quot (mul income 765) 10000;
            PerPaycheckNetCents := p;
            TermNetCents := net |}.
Proof.
  intros Hsd Hf Hfw Hst.
  destruct (perPay_ok
              (sub income (add (add (tax fw) st)
                               (quot (mul income 765) 10000)))
              (paychecks payFreq termWeeks)) as (p & Hp & _).
  exists p. split; [exact Hp|].
  unfold EstimateTaxes. simpl String.eqb. rewrite Hsd, Hf. run_estimate.
  rewrite Hfw. run_estimate.
  destruct Hst as [[-> ->] | (Hne & srows & sw & Hs & Hsw & ->)].
  - simpl String.eqb. run_estimate. rewrite Hp. reflexivity.
  - apply String.eqb_neq in Hne. rewrite Hne, Hs. run_estimate.
    rewrite Hsw. run_estimate. rewrite Hp. reflexivity.
Qed.

(** **** The bracket walk over a table that covers [0, oo) *)

Lemma chained_from L tbl :
  bracket_low <$> head tbl = Some L ->
  consecutive (fun b1 b2 => bracket_low b1 <= bracket_low b2) tbl ->
  consecutive (fun b1 b2 => bracket_low b2 = bracket_high b1) tbl ->
  bracket_high <$> last tbl = Some 0 ->
  chained L tbl.
Proof.
  revert L. induction tbl as [|b tbl IH]; intros L Hh Hs Hl Ht;
    [discriminate|].
  simpl in Hh. injection Hh as Hh. simpl. split; [exact Hh|].
  destruct tbl as [|b' tbl].
  - simpl in Ht. congruence.
  - destruct Hs as [Hs1 Hs], Hl as [Hl1 Hl]. split; [lia|].
    apply IH; [simpl; congruence | exact Hs | exact Hl | exact Ht].
Qed.

Lemma covers_chained tbl : covers tbl -> chained 0 tbl.
Proof. intros (Hh & Hs & Hl & Ht). apply chained_from; assumption. Qed.

Lemma bracketLoop_done T tbl w :
  remaining w <= 0 -> bracketLoop T (Scanned <$> tbl) w = Ok w.
Proof.
  intros H. destruct tbl as [|[lo hi r] tbl]; simpl; [reflexivity|].
  destruct (Z.leb_spec (remaining w) 0); [reflexivity | lia].
Qed.

Lemma min_spec a b : min a b = Z.min a b.
Proof. unfold min. destruct (Z.ltb_spec a b); lia. Qed.

Lemma sub_id a b : in_int64 (a - b) -> sub a b = a - b.
Proof. apply wrap64_id. Qed.

Lemma add_id a b : in_int64 (a + b) -> add a b = a + b.
Proof. apply wrap64_id. Qed.

Lemma mul_id a b : in_int64 (a * b) -> mul a b = a * b.
Proof. apply wrap64_id. Qed.

(** One iteration on a row of a chained table, the income reaching into
    the row: the segment is the part of the row below the income. *)
Lemma segment_chained T L hi :
  0 <= L < T -> in_int64 T -> in_int64 hi -> (hi <> 0 -> L <= hi) ->
  let segment := min (T - L) (sub (if hi =? 0 then T else hi) L) in
  segment = (if hi =? 0 then T - L else Z.min (T - L) (hi - L))
  /\ 0 <= segment <= T - L
  /\ sub (T - L) segment = (if hi =? 0 then 0 else Z.max 0 (T - hi)).
Proof.
  intros HL HT Hhi Hle. cbv zeta.
  assert (Hr : forall z, 0 <= z <= T -> in_int64 z).
  { unfold in_int64, min_int64, max_int64 in *. lia. }
  destruct (Z.eqb_spec hi 0) as [->|Hne].
  - rewrite (sub_id T L), min_spec, Z.min_id by (apply Hr; lia).
    split; [reflexivity|]. split; [lia|].
    unfold sub. rewrite Z.sub_diag. reflexivity.
  - specialize (Hle Hne).
    assert (E : sub hi L = hi - L).
    { apply sub_id. unfold in_int64, min_int64, max_int64 in *. lia. }
    rewrite E, min_spec. split; [reflexivity|]. split; [lia|].
    rewrite sub_id by (apply Hr; lia). lia.
Qed.

Lemma walk_chained tbl : forall L T w,
  chained L tbl -> fits tbl -> 0 <= L -> 0 <= T -> in_int64 T ->
  remaining w = Z.max 0 (T - L) ->
  exists w',
    bracketLoop T (Scanned <$> tbl) w = Ok w'
    /\ remaining w' = 0
    /\ Zsum (segments w') = Zsum (segments w) + remaining w
    /\ (Forall (Z.le 0) (segments w) -> Forall (Z.le 0) (segments w')).
Proof.
  induction tbl as [|[lo hi r] tbl IH]; intros L T w Hc Hf HL HT HTr Hrem;
    [contradiction|].
  destruct Hc as [Hlo Hc]. simpl in Hlo. subst lo.
  apply Forall_cons in Hf as [(_ & Hhi & _) Hf]. simpl in Hhi, Hc.
  change (Scanned <$> mkBracket L hi r :: tbl)
    with (Scanned (mkBracket L hi r) :: (Scanned <$> tbl)).
  cbn [bracketLoop].
  destruct (Z.leb_spec (remaining w) 0) as [Hz|Hpos].
  - exists w. split; [reflexivity|]. split; [lia|]. split; [lia|auto].
  - assert (HLT : 0 <= L < T) by lia.
    assert (Hle : hi <> 0 -> L <= hi).
    { intros Hne. destruct tbl; [contradiction | tauto]. }
    replace (remaining w) with (T - L) by lia.
    destruct (segment_chained T L hi HLT HTr Hhi Hle) as (Hseg & Hbd & Hnew).
    cbv zeta in Hseg, Hbd, Hnew.
    set (segment := min (T - L) (sub (if hi =? 0 then T else hi) L)) in *.
    set (w1 := {| tax := _; remaining := _; segments := _ |}).
    assert (Hsum : Zsum (segments w1) = Zsum (segments w) + segment).
    { subst w1. simpl. unfold Zsum. rewrite foldr_app. simpl.
      generalize (segments w). intros l. induction l; simpl; lia. }
    assert (Hall : Forall (Z.le 0) (segments w) ->
                   Forall (Z.le 0) (segments w1)).
    { intros H. subst w1. simpl. apply Forall_app. split; [exact H|].
      constructor; [lia | constructor]. }
    destruct (Z.eqb_spec hi 0) as [->|Hne].
    + exists w1. split; [apply bracketLoop_done; simpl; lia|].
      split; [exact Hnew|]. split; [lia | exact Hall].
    + destruct tbl as [|b' tbl']; [contradiction|].
      destruct Hc as [Hle' Hc].
      destruct (IH hi T w1 Hc Hf ltac:(lia) HT HTr Hnew)
        as (w' & Hrun & Hr0 & Hs & Hp).
      exists w'. split; [exact Hrun|]. split; [exact Hr0|].
      split; [|auto].
      rewrite Hs, Hsum. change (remaining w1) with (sub (T - L) segment).
      lia.
Qed.

(** The low bounds of a chained table do not go down. *)
Lemma chained_lows tbl : forall L,
  chained L tbl -> Forall (fun b => L <= bracket_low b) tbl.
Proof.
  induction tbl as [|[lo hi r] tbl IH]; intros L Hc; [constructor|].
  destruct Hc as [Hlo Hc]. simpl in Hlo, Hc. subst lo.
  constructor; [simpl; lia|].
  destruct tbl as [|b' tbl']; [constructor|].
  destruct Hc as [Hle Hc].
  apply (Forall_impl _ _ _ (IH hi Hc)). intros b Hb. lia.
Qed.

(** The walk over a chained table, row by row: the rows it taxes are
    the first [n], each for the part of the income between its bounds
    and at its own rate. *)
Lemma walk_portions tbl : forall L T w,
  chained L tbl -> fits tbl -> 0 <= L -> 0 <= T -> in_int64 T ->
  remaining w = Z.max 0 (T - L) ->
  exists w' n,
    bracketLoop T (Scanned <$> tbl) w = Ok w'
    /\ segments w'
       = segments w
         ++ ((fun b => (if bracket_high b =? 0 then T
                        else Z.min T (bracket_high b)) - bracket_low b)
             <$> take n tbl)
    /\ tax w'
       = foldl (fun t b =>
                  add t (quot (mul ((if bracket_high b =? 0 then T
                                     else Z.min T (bracket_high b))
                                    - bracket_low b) (rate_bps b)) 10000))
               (tax w) (take n tbl)
    /\ Forall (fun b => bracket_low b < T) (take n tbl)
    /\ Forall (fun b => T <= bracket_low b
                        \/ exists b', b' ∈ take n tbl /\ bracket_high b' = 0)
              (drop n tbl).
Proof.
  induction tbl as [|[lo hi r] tbl IH]; intros L T w Hc Hf HL HT HTr Hrem;
    [contradiction|].
  pose proof (chained_lows _ _ Hc) as Hlows.
  destruct Hc as [Hlo Hc]. simpl in Hlo. subst lo.
  apply Forall_cons in Hf as [(_ & Hhi & _) Hf]. simpl in Hhi, Hc.
  change (Scanned <$> mkBracket L hi r :: tbl)
    with (Scanned (mkBracket L hi r) :: (Scanned <$> tbl)).
  cbn [bracketLoop].
  destruct (Z.leb_spec (remaining w) 0) as [Hz|Hpos].
  - exists w, 0%nat. split; [reflexivity|]. cbn [take drop fmap list_fmap foldl].
    rewrite app_nil_r. repeat split; [constructor|].
    apply (Forall_impl _ _ _ Hlows). intros b Hb. left. lia.
  - assert (HLT : 0 <= L < T) by lia.
    assert (Hle : hi <> 0 -> L <= hi).
    { intros Hne. destruct tbl; [contradiction | tauto]. }
    replace (remaining w) with (T - L) by lia.
    destruct (segment_chained T L hi HLT HTr Hhi Hle) as (Hseg & _ & Hnew).
    cbv zeta in Hseg, Hnew.
    assert (Hpart : min (T - L) (sub (if hi =? 0 then T else hi) L)
                    = (if hi =? 0 then T else Z.min T hi) - L).
    { rewrite Hseg. destruct (hi =? 0); lia. }
    rewrite Hpart in Hnew |- *.
    set (segment := (if hi =? 0 then T else Z.min T hi) - L) in *.
    set (w1 := {| tax := _; remaining := _; segments := _ |}).
    destruct (Z.eqb_spec hi 0) as [->|Hne].
    + exists w1, 1%nat. split; [apply bracketLoop_done; simpl; lia|].
      cbn [take drop fmap list_fmap foldl bracket_high bracket_low rate_bps].
      rewrite take_0, drop_0. change (0 =? 0) with true. cbv iota.
      repeat split.
      * constructor; [simpl; lia | constructor].
      * apply Forall_forall. intros b _. right.
        exists (mkBracket L 0 r). split; [apply list_elem_of_here|reflexivity].
    + destruct tbl as [|b' tbl']; [contradiction|].
      destruct Hc as [Hle' Hc].
      destruct (IH hi T w1 Hc Hf ltac:(lia) HT HTr Hnew)
        as (w' & n & Hrun & Hs & Ht & Hin & Hout).
      exists w', (S n). split; [exact Hrun|].
      cbn [take drop fmap list_fmap foldl bracket_high bracket_low rate_bps].
      destruct (Z.eqb_spec hi 0) as [|_]; [contradiction|].
      split; [rewrite Hs; subst w1; cbn [segments];
              rewrite <- app_assoc; reflexivity|].
      split; [exact Ht|]. split.
      * constructor; [simpl; lia | exact Hin].
      * apply (Forall_impl _ _ _ Hout).
        intros b [Hb|(b0 & Hb0 & Hh)]; [left; exact Hb|].
        right. exists b0. split; [right; exact Hb0 | exact Hh].
Qed.

(** C2: for every taxable income T >= 0 and every federal bracket table
    sorted ascending by low bound that covers [0, oo) without gap or
    overlap (first low bound 0, each low bound the high bound of the row
    before, last high bound the 0 sentinel), the bracket walk of
    [EstimateTaxes] taxes the first [n] rows of the table, those that
    start below T, and no other: the segment of each is the part of
    [0, T) between its bounds (from its low bound up to its high bound,
    or up to T if T comes first or the bracket is open-ended), the tax
    is the levy on each of these segments at the rate of its own
    bracket, added up as the code does, the segments add up to exactly
    T with nothing left over in [remaining], none is negative, and a row
    that is not taxed starts at T or above, or follows an open-ended
    row. *)
Theorem bracket_coverage (T : Z) (tbl : list Bracket) :
  0 <= T -> in_int64 T -> covers tbl -> fits tbl ->
  exists w n,
    bracketWalk T (Scanned <$> tbl) = Ok w
    /\ segments w
       = (fun b => (if bracket_high b =? 0 then T
                    else Z.min T (bracket_high b)) - bracket_low b)
         <$> take n tbl
    /\ tax w
       = foldl (fun t b =>
                  add t (quot (mul ((if bracket_high b =? 0 then T
                                     else Z.min T (bracket_high b))
                                    - bracket_low b) (rate_bps b)) 10000))
               0 (take n tbl)
    /\ Zsum (segments w) = T
    /\ remaining w = 0
    /\ Forall (Z.le 0) (segments w)
    /\ Forall (fun b => bracket_low b < T) (take n tbl)
    /\ Forall (fun b => T <= bracket_low b
                        \/ exists b', b' ∈ take n tbl /\ bracket_high b' = 0)
              (drop n tbl).
Proof.
  intros HT HTr Hc Hf. apply covers_chained in Hc.
  destruct (walk_chained tbl 0 T
              {| tax := 0; remaining := T; segments := [] |}
              Hc Hf ltac:(lia) HT HTr) as (w & Hrun & Hr0 & Hs & Hp).
  { simpl. lia. }
  destruct (walk_portions tbl 0 T
              {| tax := 0; remaining := T; segments := [] |}
              Hc Hf ltac:(lia) HT HTr)
    as (w' & n & Hrun' & Hseg & Htax & Hin & Hout).
  { simpl. lia. }
  rewrite Hrun in Hrun'. injection Hrun' as <-.
  exists w, n. split; [exact Hrun|]. split; [exact Hseg|].
  split; [exact Htax|]. split; [simpl in Hs; lia|].
  split; [exact Hr0|]. split; [apply Hp; constructor|].
  split; [exact Hin | exact Hout].
Qed.

(** **** Monotonicity *)

(** The tax of one segment, where nothing overflows. *)
Lemma levy T t segment r :
  0 <= segment -> 0 <= r <= 10000 -> T * 10000 <= max_int64 ->
  0 <= t -> t + segment <= T ->
  add t (quot (mul segment r) 10000) = t + segment * r / 10000
  /\ 0 <= segment * r / 10000 <= segment.
Proof.
  intros Hs Hr HT Ht Hts.
  assert (Hq : 0 <= segment * r / 10000 <= segment).
  { split; [apply Z.div_pos; nia|].
    apply Z.div_le_upper_bound; nia. }
  split; [|exact Hq].
  unfold max_int64 in HT.
  rewrite mul_id by (unfold in_int64, min_int64, max_int64; nia).
  rewrite quot_nonneg by (unfold max_int64; nia).
  apply add_id. unfold in_int64, min_int64, max_int64. lia.
Qed.

Lemma walk_bounds tbl : forall L T w,
  chained L tbl -> fits tbl -> rates_0_100 tbl ->
  0 <= L -> 0 <= T -> T * 10000 <= max_int64 ->
  remaining w = Z.max 0 (T - L) -> 0 <= tax w -> tax w + remaining w <= T ->
  exists w',
    bracketLoop T (Scanned <$> tbl) w = Ok w'
    /\ tax w <= tax w' <= T.
Proof.
  induction tbl as [|[lo hi r] tbl IH];
    intros L T w Hc Hf Hr HL HT HTm Hrem Ht Htr; [contradiction|].
  destruct Hc as [Hlo Hc]. simpl in Hlo. subst lo.
  apply Forall_cons in Hf as [(_ & Hhi & _) Hf]. simpl in Hhi, Hc.
  apply Forall_cons in Hr as [Hr0 Hr]. simpl in Hr0.
  assert (HTr : in_int64 T).
  { unfold in_int64, min_int64, max_int64 in *. lia. }
  change (Scanned <$> mkBracket L hi r :: tbl)
    with (Scanned (mkBracket L hi r) :: (Scanned <$> tbl)).
  cbn [bracketLoop].
  destruct (Z.leb_spec (remaining w) 0) as [Hz|Hpos].
  - exists w. split; [reflexivity | lia].
  - assert (HLT : 0 <= L < T) by lia.
    assert (Hle : hi <> 0 -> L <= hi).
    { intros Hne. destruct tbl; [contradiction | tauto]. }
    replace (remaining w) with (T - L) in * by lia.
    destruct (segment_chained T L hi HLT HTr Hhi Hle) as (Hseg & Hbd & Hnew).
    cbv zeta in Hseg, Hbd, Hnew.
    set (segment := min (T - L) (sub (if hi =? 0 then T else hi) L)) in *.
    destruct (levy T (tax w) segment r) as [Hlevy Hq]; try lia.
    rewrite Hlevy.
    set (w1 := {| tax := _; remaining := _; segments := _ |}).
    destruct (Z.eqb_spec hi 0) as [->|Hne].
    + exists w1. split; [apply bracketLoop_done; simpl; lia|].
      simpl. lia.
    + destruct tbl as [|b' tbl']; [contradiction|].
      destruct Hc as [Hle' Hc].
      destruct (IH hi T w1 Hc Hf Hr ltac:(lia) HT HTm Hnew)
        as (w' & Hrun & Hb); [simpl; lia | simpl; lia |].
      exists w'. split; [exact Hrun|]. simpl in Hb. lia.
Qed.

Lemma walk_mono tbl : forall L T1 T2 w1 w2,
  chained L tbl -> fits tbl -> rates_0_100 tbl ->
  0 <= L -> 0 <= T1 <= T2 -> T2 * 10000 <= max_int64 ->
  remaining w1 = Z.max 0 (T1 - L) -> remaining w2 = Z.max 0 (T2 - L) ->
  0 <= tax w1 <= tax w2 ->
  tax w1 + remaining w1 <= T1 -> tax w2 + remaining w2 <= T2 ->
  exists w1' w2',
    bracketLoop T1 (Scanned <$> tbl) w1 = Ok w1'
    /\ bracketLoop T2 (Scanned <$> tbl) w2 = Ok w2'
    /\ tax w1' <= tax w2'.
Proof.
  induction tbl as [|[lo hi r] tbl IH];
    intros L T1 T2 w1 w2 Hc Hf Hr HL HT HTm Hrem1 Hrem2 Ht Htr1 Htr2;
    [contradiction|].
  destruct (Z.leb_spec (remaining w1) 0) as [Hz|Hpos].
  - destruct (walk_bounds _ L T2 w2 Hc Hf Hr) as (w2' & Hrun2 & Hb2);
      try lia.
    exists w1, w2'. split; [apply bracketLoop_done; exact Hz|].
    split; [exact Hrun2 | lia].
  - destruct Hc as [Hlo Hc]. simpl in Hlo. subst lo.
    apply Forall_cons in Hf as [(_ & Hhi & _) Hf]. simpl in Hhi, Hc.
    apply Forall_cons in Hr as [Hr0 Hr]. simpl in Hr0.
    assert (HTr : in_int64 T1 /\ in_int64 T2).
    { unfold in_int64, min_int64, max_int64 in *. lia. }
    change (Scanned <$> mkBracket L hi r :: tbl)
      with (Scanned (mkBracket L hi r) :: (Scanned <$> tbl)).
    cbn [bracketLoop].
    destruct (Z.leb_spec (remaining w1) 0) as [|_]; [lia|].
    destruct (Z.leb_spec (remaining w2) 0) as [|_]; [lia|].
    assert (Hle : hi <> 0 -> L <= hi).
    { intros Hne. destruct tbl; [contradiction | tauto]. }
    replace (remaining w1) with (T1 - L) in * by lia.
    replace (remaining w2) with (T2 - L) in * by lia.
    destruct (segment_chained T1 L hi ltac:(lia) (proj1 HTr) Hhi Hle)
      as (Hseg1 & Hbd1 & Hnew1).
    destruct (segment_chained T2 L hi ltac:(lia) (proj2 HTr) Hhi Hle)
      as (Hseg2 & Hbd2 & Hnew2).
    cbv zeta in Hseg1, Hbd1, Hnew1, Hseg2, Hbd2, Hnew2.
    set (s1 := min (T1 - L) (sub (if hi =? 0 then T1 else hi) L)) in *.
    set (s2 := min (T2 - L) (sub (if hi =? 0 then T2 else hi) L)) in *.
    destruct (levy T1 (tax w1) s1 r) as [Hlevy1 Hq1]; try lia.
    destruct (levy T2 (tax w2) s2 r) as [Hlevy2 Hq2]; try lia.
    rewrite Hlevy1, Hlevy2.
    assert (Hs12 : s1 * r / 10000 <= s2 * r / 10000).
    { apply Z.div_le_mono; [lia|].
      destruct (hi =? 0); nia. }
    set (v1 := {| tax := _; remaining := sub (T1 - L) s1; segments := _ |}).
    set (v2 := {| tax := _; remaining := sub (T2 - L) s2; segments := _ |}).
    destruct (Z.eqb_spec hi 0) as [->|Hne].
    + exists v1, v2.
      split; [apply bracketLoop_done; simpl; lia|].
      split; [apply bracketLoop_done; simpl; lia|].
      simpl. lia.
    + destruct tbl as [|b' tbl']; [contradiction|].
      destruct Hc as [Hle' Hc].
      apply (IH hi T1 T2 v1 v2 Hc Hf Hr); simpl; lia.
Qed.

Lemma bracketWalk_mono tbl T1 T2 :
  usable tbl -> 0 <= T1 <= T2 -> T2 * 10000 <= max_int64 ->
  exists w1 w2,
    bracketWalk T1 (Scanned <$> tbl) = Ok w1
    /\ bracketWalk T2 (Scanned <$> tbl) = Ok w2
    /\ 0 <= tax w1 <= tax w2 /\ tax w2 <= T2.
Proof.
  intros ([-> | Hc] & Hf & Hr) HT HTm.
  - do 2 eexists. split; [reflexivity|]. split; [reflexivity|]. simpl. lia.
  - apply covers_chained in Hc. unfold bracketWalk.
    set (w1 := {| tax := 0; remaining := T1; segments := [] |}).
    set (w2 := {| tax := 0; remaining := T2; segments := [] |}).
    destruct (walk_mono tbl 0 T1 T2 w1 w2 Hc Hf Hr) as (v1 & v2 & H1 & H2 & Hle);
      try (simpl; lia).
    destruct (walk_bounds tbl 0 T1 w1 Hc Hf Hr) as (v1' & H1' & Hb1);
      try (simpl; lia).
    destruct (walk_bounds tbl 0 T2 w2 Hc Hf Hr) as (v2' & H2' & Hb2);
      try (simpl; lia).
    rewrite H1 in H1'. injection H1' as <-.
    rewrite H2 in H2'. injection H2' as <-.
    exists v1, v2. simpl in Hb1, Hb2. auto with zarith.
Qed.

Lemma fica_mono a b :
  0 <= a <= b -> b * 10000 <= max_int64 ->
  quot (mul a 765) 10000 = a * 765 / 10000
  /\ quot (mul b 765) 10000 = b * 765 / 10000
  /\ a * 765 / 10000 <= b * 765 / 10000.
Proof.
  intros Hab Hb. unfold max_int64 in Hb.
  rewrite !mul_id by (unfold in_int64, min_int64, max_int64; lia).
  rewrite !quot_nonneg by (unfold max_int64; lia).
  split; [reflexivity|]. split; [reflexivity|].
  apply Z.div_le_mono; lia.
Qed.

Lemma clampTaxable_spec a sd :
  0 <= a -> in_int64 a -> 0 <= sd -> in_int64 sd ->
  clampTaxable a sd = Z.max 0 (a - sd).
Proof.
  intros Ha Hai Hs Hsi. unfold clampTaxable.
  rewrite sub_id by (unfold in_int64, min_int64, max_int64 in *; lia).
  destruct (Z.ltb_spec (a - sd) 0); lia.
Qed.

(** C3, as far as it holds: the bracket tables are each absent or cover
    [0, oo), with rates between 0 and 10000 basis points, the standard
    deduction is not negative, and the larger income b satisfies
    b * 10000 <= 2^63 - 1, so that no product leaves the range of a Go
    int. Then, for a single filer and incomes 0 <= a <= b, both calls
    return a result and federalCents + stateCents + ficaCents for a is
    at most that for b. *)
Theorem total_tax_monotone d state year payFreq termWeeks sd ftbl stbl a b :
  std_deduction_single d year = Got sd -> 0 <= sd -> in_int64 sd ->
  scans (federal_rows d year) ftbl -> usable ftbl ->
  (state = "" \/ scans (state_rows d year state) stbl /\ usable stbl) ->
  0 <= a <= b -> b * 10000 <= max_int64 ->
  exists ra rb,
    snd (EstimateTaxes d a state "single" year payFreq termWeeks) = Ok ra
    /\ snd (EstimateTaxes d b state "single" year payFreq termWeeks) = Ok rb
    /\ totalTax ra <= totalTax rb.
Proof.
  intros Hsd Hsd0 Hsdi Hf Hfu Hs Hab Hb.
  assert (Hai : in_int64 a /\ in_int64 b).
  { unfold in_int64, min_int64, max_int64 in *. lia. }
  pose proof (clampTaxable_spec a sd ltac:(lia) (proj1 Hai) Hsd0 Hsdi) as HTa.
  pose proof (clampTaxable_spec b sd ltac:(lia) (proj2 Hai) Hsd0 Hsdi) as HTb.
  assert (HT : 0 <= clampTaxable a sd <= clampTaxable b sd) by lia.
  assert (HTm : clampTaxable b sd * 10000 <= max_int64) by lia.
  destruct (bracketWalk_mono ftbl _ _ Hfu HT HTm)
    as (fa & fb & Hfa & Hfb & Hfab & _).
  destruct (fica_mono a b Hab Hb) as (Ea & Eb & Hfica).
  assert (Hstate : exists sa sb,
    (state = "" /\ sa = 0 \/
     state <> "" /\ exists srows sw,
       state_rows d year state = Got srows /\
       bracketWalk (clampTaxable a sd) srows = Ok sw /\ sa = tax sw) /\
    (state = "" /\ sb = 0 \/
     state <> "" /\ exists srows sw,
       state_rows d year state = Got srows /\
       bracketWalk (clampTaxable b sd) srows = Ok sw /\ sb = tax sw) /\
    sa <= sb).
  { destruct (string_dec state "") as [He|He].
    - exists 0, 0. split; [left; auto|]. split; [left; auto | lia].
    - destruct Hs as [Hs|[Hs Hsu]]; [contradiction|].
      destruct (bracketWalk_mono stbl _ _ Hsu HT HTm)
        as (sa & sb & Hsa & Hsb & Hsab & _).
      exists (tax sa), (tax sb).
      split; [right; split; [exact He|]; exists (Scanned <$> stbl), sa; auto|].
      split; [right; split; [exact He|]; exists (Scanned <$> stbl), sb; auto|].
      lia. }
  destruct Hstate as (sa & sb & Hsa & Hsb & Hsab).
  destruct (EstimateTaxes_single d a state year payFreq termWeeks sd
              _ fa sa Hsd Hf Hfa Hsa) as (pa & _ & Hra).
  destruct (EstimateTaxes_single d b state year payFreq termWeeks sd
              _ fb sb Hsd Hf Hfb Hsb) as (pb & _ & Hrb).
  eexists. eexists. split; [exact Hra|]. split; [exact Hrb|].
  unfold totalTax. simpl. lia.
Qed.

Lemma total_tax_monotone_witness :
  exists ra rb,
    snd (EstimateTaxes scenarioDB 3000000 "CA" "single" 2024 "biweekly" 12)
    = Ok ra
    /\ snd (EstimateTaxes scenarioDB 5200000 "CA" "single" 2024 "biweekly" 12)
      = Ok rb
    /\ totalTax ra <= totalTax rb.
Proof.
  apply (total_tax_monotone scenarioDB "CA" 2024 "biweekly" 12 1385000
           [mkBracket 0 0 2200] [mkBracket 0 0 500] 3000000 5200000).
  - reflexivity.
  - lia.
  - unfold in_int64, min_int64, max_int64. lia.
  - reflexivity.
  - split; [right; repeat split; reflexivity|].
    split; repeat constructor; unfold in_int64, min_int64, max_int64;
      simpl; lia.
  - right. split; [reflexivity|].
    split; [right; repeat split; reflexivity|].
    split; repeat constructor; unfold in_int64, min_int64, max_int64;
      simpl; lia.
  - lia.
  - unfold max_int64. lia.
Defined.

(** C3, as stated, fails on the code where a product wraps around: on
    the database of scenario A an income of 42 trillion dollars is taxed
    less, in total, than the 52,000 dollars of the scenario. *)
Lemma total_tax_not_monotone :
  0 <= 5200000 <= hugeIncome
  /\ exists ra rb,
       snd (EstimateTaxes scenarioDB 5200000 "CA" "single" 2024 "biweekly" 12)
       = Ok ra
       /\ snd (EstimateTaxes scenarioDB hugeIncome "CA" "single" 2024
                 "biweekly" 12) = Ok rb
       /\ totalTax rb < totalTax ra.
Proof.
  split; [unfold hugeIncome; lia|].
  eexists. eexists. split; [vm_compute; reflexivity|].
  split; [vm_compute; reflexivity|].
  vm_compute. reflexivity.
Qed.

(** Without overflow, monotonicity still needs the table to cover
    [0, oo) and the rates not to be negative. *)
Example gap_table_not_monotone :
  snd (EstimateTaxes gapDB 0 "" "single" 2024 "weekly" 12)
  = Ok (mkTaxResult 0 0 0 0 0)
  /\ snd (EstimateTaxes gapDB 50 "" "single" 2024 "weekly" 12)
     = Ok (mkTaxResult (-50) 0 3 8 97).
Proof. split; vm_compute; reflexivity. Qed.

Example negative_rate_not_monotone :
  snd (EstimateTaxes creditDB 0 "" "single" 2024 "weekly" 12)
  = Ok (mkTaxResult 0 0 0 0 0)
  /\ snd (EstimateTaxes creditDB 10000 "" "single" 2024 "weekly" 12)
     = Ok (mkTaxResult (-5000) 0 765 1186 14235).
Proof. split; vm_compute; reflexivity. Qed.

Lemma bracket_coverage_witness :
  exists w n,
    bracketWalk 3815000 (Scanned <$> federal2024) = Ok w
    /\ segments w
       = (fun b => (if bracket_high b =? 0 then 3815000
                    else Z.min 3815000 (bracket_high b)) - bracket_low b)
         <$> take n federal2024
    /\ tax w
       = foldl (fun t b =>
                  add t (quot (mul ((if bracket_high b =? 0 then 3815000
                                     else Z.min 3815000 (bracket_high b))
                                    - bracket_low b) (rate_bps b)) 10000))
               0 (take n federal2024)
    /\ Zsum (segments w) = 3815000
    /\ remaining w = 0
    /\ Forall (Z.le 0) (segments w)
    /\ Forall (fun b => bracket_low b < 3815000) (take n federal2024)
    /\ Forall (fun b => 3815000 <= bracket_low b
                        \/ exists b', b' ∈ take n federal2024
                                      /\ bracket_high b' = 0)
              (drop n federal2024).
Proof.
  apply (bracket_coverage 3815000 federal2024).
  - lia.
  - unfold in_int64, min_int64, max_int64. lia.
  - repeat split; simpl; lia.
  - repeat constructor; unfold in_int64, min_int64, max_int64; simpl; lia.
Defined.

(** **** Failure paths *)

Lemma EstimateTaxes_no_panic d income state fs year payFreq termWeeks msg :
  snd (EstimateTaxes d income state fs year payFreq termWeeks) <> Panic msg.
Proof.
  unfold EstimateTaxes. run_estimate.
  destruct (String.eqb fs "single").
  - destruct (std_deduction_single d year) as [sd|e]; run_estimate;
      [|discriminate].
    destruct (federal_rows d year) as [frows|e]; run_estimate;
      [|discriminate].
    destruct (bracketWalk (clampTaxable income sd) frows) as [fw|e|e] eqn:Hfw;
      [|discriminate|exfalso; exact (bracketLoop_no_panic _ _ _ _ Hfw)].
    destruct (String.eqb state ""); run_estimate.
    + destruct (perPay_ok (sub income (add (add (tax fw) 0)
                 (quot (mul income 765) 10000)))
                 (paychecks payFreq termWeeks)) as (p & -> & _).
      discriminate.
    + destruct (state_rows d year state) as [srows|e]; run_estimate;
        [|discriminate].
      destruct (bracketWalk (clampTaxable income sd) srows) as [sw|e|e] eqn:Hsw;
        [|discriminate|exfalso; exact (bracketLoop_no_panic _ _ _ _ Hsw)].
      run_estimate.
      destruct (perPay_ok (sub income (add (add (tax fw) (tax sw))
                 (quot (mul income 765) 10000)))
                 (paychecks payFreq termWeeks)) as (p & -> & _).
      discriminate.
  - destruct (String.eqb fs "married"); run_estimate; discriminate.
Qed.

(** **** Scenario A *)

(** C1: with an annual income of 5,200,000 cents, a standard deduction of
    1,385,000 cents, the single federal bracket {0, 0, 2200 bps}, the
    single state bracket {0, 0, 500 bps}, a single filer paid biweekly
    over a 12-week term, [EstimateTaxes] returns federalCents = 839,300,
    stateCents = 190,750, ficaCents = 397,800, termNetCents = 3,772,150
    and perPaycheckNetCents = 628,691, over 6 paychecks. *)
Theorem scenario_A d year state :
  state <> "" ->
  std_deduction_single d year = Got 1385000 ->
  federal_rows d year = Got [Scanned (mkBracket 0 0 2200)] ->
  state_rows d year state = Got [Scanned (mkBracket 0 0 500)] ->
  EstimateTaxes d 5200000 state "single" year "biweekly" 12
  = ([QStdDeduction year; QFederal year; QState year state],
     Ok {| FederalCents := 839300;
           StateCents := 190750;
           FicaCents := 397800;
           PerPaycheckNetCents := 628691;
           TermNetCents := 3772150 |})
  /\ paychecks "biweekly" 12 = 6.
Proof.
  intros Hne Hsd Hf Hs. split; [|reflexivity].
  apply String.eqb_neq in Hne.
  unfold EstimateTaxes. simpl String.eqb. rewrite Hsd, Hf, Hne, Hs.
  reflexivity.
Qed.

Lemma scenario_A_witness :
  EstimateTaxes scenarioDB 5200000 "NY" "single" 2025 "biweekly" 12
  = ([QStdDeduction 2025; QFederal 2025; QState 2025 "NY"],
     Ok (mkTaxResult 839300 190750 397800 628691 3772150))
  /\ paychecks "biweekly" 12 = 6.
Proof.
  apply (scenario_A scenarioDB 2025 "NY");
    [discriminate | reflexivity | reflexivity | reflexivity].
Defined.

(** **** Filing status *)

(** C8: a filing status other than "single" and "married" is rejected
    with the error "unsupported filing status: <status>", and "married"
    with the different error "married filing jointly not yet supported";
    either way there is no [TaxResult], and nothing was computed: no
    query was sent, and the answer is the same whatever the database
    and the other arguments. *)
Theorem filing_status_rejected d income state fs year payFreq termWeeks :
  (fs <> "single" -> fs <> "married" ->
   EstimateTaxes d income state fs year payFreq termWeeks
   = ([], Err ("unsupported filing status: " +:+ fs)))
  /\ EstimateTaxes d income state "married" year payFreq termWeeks
     = ([], Err "married filing jointly not yet supported")
  /\ "married filing jointly not yet supported"
     <> "unsupported filing status: " +:+ fs.
Proof.
  split; [|split].
  - intros H1 H2. apply String.eqb_neq in H1, H2.
    unfold EstimateTaxes. rewrite H1, H2. reflexivity.
  - reflexivity.
  - discriminate.
Qed.

Lemma filing_status_rejected_witness :
  EstimateTaxes scenarioDB 5200000 "CA" "head_of_household" 2024 "weekly" 12
  = ([], Err "unsupported filing status: head_of_household").
Proof.
  apply (filing_status_rejected scenarioDB 5200000 "CA" "head_of_household"
           2024 "weekly" 12); discriminate.
Defined.

(** **** Paychecks *)

(** A result of [EstimateTaxes], taken apart: the converse of
    [EstimateTaxes_single]. *)
Lemma EstimateTaxes_ok_inv d income state fs year payFreq termWeeks r :
  snd (EstimateTaxes d income state fs year payFreq termWeeks) = Ok r ->
  fs = "single" /\
  exists sd frows fw st,
    std_deduction_single d year = Got sd
    /\ federal_rows d year = Got frows
    /\ bracketWalk (clampTaxable income sd) frows = Ok fw
    /\ (state = "" /\ st = 0 \/
        state <> "" /\ exists srows sw,
          state_rows d year state = Got srows /\
          bracketWalk (clampTaxable income sd) srows = Ok sw /\ st = tax sw)
    /\ FederalCents r = tax fw /\ StateCents r = st
    /\ FicaCents r = quot (mul income 765) 10000
    /\ TermNetCents r
       = sub income (add (add (tax fw) st) (quot (mul income 765) 10000))
    /\ (if 0 <? paychecks payFreq termWeeks
        then div (TermNetCents r) (paychecks payFreq termWeeks) else Ok 0)
       = Ok (PerPaycheckNetCents r).
Proof.
  unfold EstimateTaxes. run_estimate.
  destruct (String.eqb_spec fs "single") as [->|Hfs].
  - destruct (std_deduction_single d year) as [sd|e] eqn:Hsd; run_estimate;
      [|intros [=]].
    destruct (federal_rows d year) as [frows|e] eqn:Hf; run_estimate;
      [|intros [=]].
    destruct (bracketWalk (clampTaxable income sd) frows) as [fw|e|e] eqn:Hfw;
      [|intros [=]|intros [=]].
    destruct (String.eqb_spec state "") as [Hst|Hst]; run_estimate.
    + destruct (perPay_ok (sub income (add (add (tax fw) 0)
                 (quot (mul income 765) 10000)))
                 (paychecks payFreq termWeeks)) as (p & Hp & _).
      rewrite Hp. run_estimate. intros [= <-]. split; [reflexivity|].
      exists sd, frows, fw, 0. simpl. repeat split; auto.
    + destruct (state_rows d year state) as [srows|e] eqn:Hs; run_estimate;
        [|intros [=]].
      destruct (bracketWalk (clampTaxable income sd) srows) as [sw|e|e] eqn:Hsw;
        [|intros [=]|intros [=]].
      run_estimate.
      destruct (perPay_ok (sub income (add (add (tax fw) (tax sw))
                 (quot (mul income 765) 10000)))
                 (paychecks payFreq termWeeks)) as (p & Hp & _).
      rewrite Hp. run_estimate. intros [= <-]. split; [reflexivity|].
      exists sd, frows, fw, (tax sw). simpl. repeat split; auto.
      right. split; [exact Hst|]. exists srows, sw. auto.
  - destruct (String.eqb fs "married"); run_estimate; intros [=].
Qed.



End EstimateFacts.

Module PlaidFacts.
Import GoInt GoIntFacts Plaid.
Local Open Scope Z_scope.

(** **** The in-place sort *)

Lemma swapIfBefore_at (pre done rest : list Transaction) cur x :
  swapIfBefore (length pre) (length pre + 1 + length done)
    (pre ++ cur :: done ++ x :: rest)
  = if Before (Date cur) (Date x)
    then pre ++ x :: done ++ cur :: rest
    else pre ++ cur :: done ++ x :: rest.
Proof.
  unfold swapIfBefore.
  assert (Hi : (pre ++ cur :: done ++ x :: rest) !! length pre = Some cur).
  { rewrite lookup_app_r by lia. rewrite Nat.sub_diag. reflexivity. }
  assert (Hj : (pre ++ cur :: done ++ x :: rest)
                 !! (length pre + 1 + length done)%nat = Some x).
  { rewrite lookup_app_r by lia.
    replace (length pre + 1 + length done - length pre)%nat
      with (S (length done)) by lia.
    simpl. rewrite lookup_app_r by lia. rewrite Nat.sub_diag. reflexivity. }
  rewrite Hi, Hj. destruct (Before (Date cur) (Date x)); [|reflexivity].
  rewrite insert_app_r_alt by lia.
  replace (length pre + 1 + length done - length pre)%nat
    with (S (length done)) by lia.
  simpl. rewrite insert_app_r_alt by lia. rewrite Nat.sub_diag. simpl.
  rewrite insert_app_r_alt by lia. rewrite Nat.sub_diag. reflexivity.
Qed.

Lemma sortInner_from (rest : list Transaction) : forall pre cur done,
  foldl (fun a j => swapIfBefore (length pre) j a)
        (pre ++ cur :: done ++ rest)
        (seq (length pre + 1 + length done) (length rest))
  = let '(m, r) := sortPass cur rest in pre ++ m :: done ++ r.
Proof.
  induction rest as [|x rest IH]; intros pre cur done; [reflexivity|].
  cbn [length seq foldl sortPass]. rewrite swapIfBefore_at.
  destruct (Before (Date cur) (Date x)).
  - specialize (IH pre x (done ++ [cur])).
    rewrite length_app in IH. simpl in IH.
    replace (length pre + 1 + (length done + 1))%nat
      with (S (length pre + 1 + length done)) in IH by lia.
    rewrite <- !app_assoc in IH. simpl in IH. rewrite IH.
    destruct (sortPass x rest) as [m r]. rewrite <- app_assoc. reflexivity.
  - specialize (IH pre cur (done ++ [x])).
    rewrite length_app in IH. simpl in IH.
    replace (length pre + 1 + (length done + 1))%nat
      with (S (length pre + 1 + length done)) in IH by lia.
    rewrite <- !app_assoc in IH. simpl in IH. rewrite IH.
    destruct (sortPass cur rest) as [m r]. rewrite <- app_assoc. reflexivity.
Qed.

Lemma sortPass_length cur rest :
  length (snd (sortPass cur rest)) = length rest.
Proof.
  revert cur. induction rest as [|x rest IH]; intros cur; [reflexivity|].
  simpl. destruct (Before (Date cur) (Date x)).
  - specialize (IH x). destruct (sortPass x rest). simpl in *. lia.
  - specialize (IH cur). destruct (sortPass cur rest). simpl in *. lia.
Qed.

Lemma sortInner_spec pre cur rest :
  sortInner (length pre) (pre ++ cur :: rest)
  = let '(m, r) := sortPass cur rest in pre ++ m :: r.
Proof.
  unfold sortInner. rewrite length_app. simpl.
  replace (length pre + S (length rest) - S (length pre))%nat
    with (length rest) by lia.
  pose proof (sortInner_from rest pre cur []) as H. simpl in H.
  replace (length pre + 1 + 0)%nat with (S (length pre)) in H by lia.
  exact H.
Qed.

Lemma sortInner_beyond i (a : list Transaction) :
  (length a <= S i)%nat -> sortInner i a = a.
Proof.
  intros H. unfold sortInner.
  replace (length a - S i)%nat with 0%nat by lia. reflexivity.
Qed.

Lemma sortOuter_from n : forall pre a,
  foldl (fun a i => sortInner i a) (pre ++ a) (seq (length pre) n)
  = pre ++ sortPasses n a.
Proof.
  induction n as [|n IH]; intros pre a; [reflexivity|].
  cbn [seq foldl]. destruct a as [|cur rest].
  - rewrite sortInner_beyond by (rewrite length_app; simpl; lia).
    clear IH. cbn [sortPasses].
    assert (E : forall k (l : list Transaction),
               (length l <= k)%nat ->
               foldl (fun a i => sortInner i a) l (seq k n) = l).
    { clear. induction n as [|n IHn]; intros k l Hk; [reflexivity|].
      cbn [seq foldl]. rewrite sortInner_beyond by lia.
      apply IHn. lia. }
    rewrite app_nil_r. apply E. lia.
  - rewrite sortInner_spec. simpl.
    destruct (sortPass cur rest) as [m r].
    specialize (IH (pre ++ [m]) r).
    rewrite length_app in IH. simpl in IH.
    replace (length pre + 1)%nat with (S (length pre)) in IH by lia.
    rewrite <- !app_assoc in IH. simpl in IH. exact IH.
Qed.

(** The two loops of [isRecurring] are a selection sort. *)
Lemma sortByDate_passes a : sortByDate a = sortPasses (length a - 1) a.
Proof. apply (sortOuter_from (length a - 1) [] a). Qed.

Lemma sortPass_perm cur rest :
  let '(m, r) := sortPass cur rest in
  m :: r ≡ₚ cur :: rest
  /\ Forall (fun x => Date x <= Date m) (cur :: rest).
Proof.
  revert cur. induction rest as [|x rest IH]; intros cur; simpl.
  - split; [reflexivity|]. repeat constructor. lia.
  - unfold Before. destruct (Z.ltb_spec (Date cur) (Date x)) as [Hlt|Hge].
    + specialize (IH x). destruct (sortPass x rest) as [m r].
      destruct IH as [Hp Hf]. split.
      * etransitivity; [apply Permutation_swap|]. apply perm_skip, Hp.
      * apply Forall_cons in Hf as [Hx Hf].
        constructor; [lia|]. constructor; assumption.
    + specialize (IH cur). destruct (sortPass cur rest) as [m r].
      destruct IH as [Hp Hf]. split.
      * etransitivity; [apply Permutation_swap|].
        etransitivity; [apply perm_skip, Hp | apply Permutation_swap].
      * apply Forall_cons in Hf as [Hc Hf].
        constructor; [exact Hc|]. constructor; [lia | exact Hf].
Qed.

Lemma sortPasses_sorted n : forall a,
  (length a <= S n)%nat ->
  sortPasses n a ≡ₚ a /\ latestFirst (sortPasses n a).
Proof.
  induction n as [|n IH]; intros a Hlen.
  - destruct a as [|x [|y a]]; simpl in *; try lia;
      (split; [reflexivity|]); repeat constructor.
  - destruct a as [|cur rest]; [split; [reflexivity | constructor]|].
    simpl. pose proof (sortPass_perm cur rest) as Hp.
    pose proof (sortPass_length cur rest) as Hl.
    destruct (sortPass cur rest) as [m r]. simpl in Hl.
    destruct Hp as [Hp Hmax].
    destruct (IH r) as [Hpr Hsr]; [simpl in Hlen; lia|].
    split.
    + rewrite Hpr. exact Hp.
    + constructor; [exact Hsr|].
      assert (Hall : Forall (fun x => Date x <= Date m) (m :: r)).
      { rewrite Hp. exact Hmax. }
      apply Forall_cons in Hall as [_ Hall].
      rewrite Hpr. exact Hall.
Qed.

Lemma sortByDate_sorted a :
  sortByDate a ≡ₚ a /\ latestFirst (sortByDate a).
Proof.
  rewrite sortByDate_passes. apply sortPasses_sorted. lia.
Qed.

(** **** The gaps of a sorted slice *)

Lemma daysSince_near t u :
  - maxDurationDays <= t - u <= maxDurationDays -> daysSince t u = t - u.
Proof. unfold daysSince. lia. Qed.

Lemma daysSince_bound t u : u <= t -> gapBound (daysSince t u).
Proof. unfold gapBound, daysSince, maxDurationDays. lia. Qed.

Lemma intervals_length a : length (intervals a) = (length a - 1)%nat.
Proof.
  induction a as [|x [|y a] IH]; [reflexivity | reflexivity |].
  cbn [intervals length] in *. lia.
Qed.

Lemma intervals_bound a : latestFirst a -> Forall gapBound (intervals a).
Proof.
  induction a as [|x [|y a] IH]; intros Hs; [constructor | constructor |].
  apply StronglySorted_inv in Hs as [Hs Hx].
  cbn [intervals]. constructor; [|apply IH; exact Hs].
  apply daysSince_bound. apply Forall_cons in Hx as [Hy _]. exact Hy.
Qed.

Lemma Zsum_bound ivs :
  Forall gapBound ivs ->
  0 <= Zsum ivs <= maxDurationDays * Z.of_nat (length ivs).
Proof.
  unfold gapBound. induction 1 as [|g ivs Hg _ IH]; simpl; [lia|].
  unfold Zsum in *. cbn [foldr]. lia.
Qed.

(** Summing a slice of gaps stays far from the ends of the int range
    (at most 2^42 gaps of at most 106751 days each). *)
Lemma foldl_add_Zsum ivs : forall acc,
  Forall gapBound ivs ->
  0 <= acc -> acc + maxDurationDays * Z.of_nat (length ivs) <= max_int64 ->
  foldl add acc ivs = acc + Zsum ivs.
Proof.
  unfold gapBound.
  induction ivs as [|g ivs IH]; intros acc Hb Ha Hm; simpl; [lia|].
  apply Forall_cons in Hb as [Hg Hb].
  assert (E : add acc g = acc + g).
  { apply wrap64_id. unfold in_int64, min_int64, max_int64 in *.
    unfold maxDurationDays in *. cbn [length] in Hm. lia. }
  rewrite E, IH; [unfold Zsum; cbn [foldr]; lia | exact Hb | lia |].
  cbn [length] in Hm. lia.
Qed.

Lemma avgInterval_spec ivs :
  Forall gapBound ivs -> ivs <> [] -> Z.of_nat (length ivs) <= maxLen ->
  avgInterval ivs = Z.quot (Zsum ivs) (Z.of_nat (length ivs))
  /\ gapBound (avgInterval ivs).
Proof.
  intros Hb Hne Hlen. unfold avgInterval.
  unfold maxLen in Hlen.
  rewrite foldl_add_Zsum; [|exact Hb|lia|unfold maxDurationDays, max_int64; lia].
  rewrite Z.add_0_l. pose proof (Zsum_bound ivs Hb) as Hs.
  assert (Hn : 0 < Z.of_nat (length ivs)).
  { destruct ivs; [contradiction | simpl; lia]. }
  assert (Hq : gapBound (Z.quot (Zsum ivs) (Z.of_nat (length ivs)))).
  { unfold gapBound. rewrite Z.quot_div_nonneg by lia. split.
    - apply Z.div_pos; lia.
    - apply Z.div_le_upper_bound; lia. }
  assert (E : quot (Zsum ivs) (Z.of_nat (length ivs))
              = Z.quot (Zsum ivs) (Z.of_nat (length ivs))).
  { apply wrap64_id. unfold gapBound, maxDurationDays in Hq.
    unfold in_int64, min_int64, max_int64. lia. }
  rewrite E. split; [reflexivity | exact Hq].
Qed.

Lemma within_tolerance g avg :
  gapBound g -> gapBound avg ->
  negb (5 <? abs (sub g avg)) = true <-> Z.abs (g - avg) <= 5.
Proof.
  unfold gapBound, maxDurationDays. intros Hg Ha.
  assert (E : sub g avg = g - avg).
  { apply wrap64_id. unfold in_int64, min_int64, max_int64. lia. }
  rewrite E. unfold abs.
  destruct (Z.ltb_spec (g - avg) 0).
  - rewrite wrap64_id by (unfold in_int64, min_int64, max_int64; lia).
    destruct (Z.ltb_spec 5 (- (g - avg))); simpl; split; intros; try lia;
      discriminate.
  - destruct (Z.ltb_spec 5 (g - avg)); simpl; split; intros; try lia;
      discriminate.
Qed.

(** What [isRecurring] does to a slice of two or more transactions: it
    leaves the slice sorted latest first, and accepts it exactly when
    every gap is within 5 days of the average gap. *)
Lemma isRecurring_spec (txns : list Transaction) :
  (2 <= length txns)%nat -> Z.of_nat (length txns) <= maxLen ->
  let gaps := intervals (sortByDate txns) in
  let average := Z.quot (Zsum gaps) (Z.of_nat (length gaps)) in
  fst (isRecurring txns) = sortByDate txns
  /\ (snd (isRecurring txns) = true
      <-> Forall (fun gap => Z.abs (gap - average) <= 5) gaps).
Proof.
  intros Hlen Hmax. cbv zeta. unfold isRecurring.
  destruct (Nat.ltb_spec (length txns) 2) as [|_]; [lia|].
  destruct (sortByDate_sorted txns) as [Hp Hs].
  pose proof (intervals_length (sortByDate txns)) as Hil.
  rewrite (Permutation_length Hp) in Hil.
  destruct (Nat.ltb_spec (length (intervals (sortByDate txns))) 1) as [|_];
    [lia|].
  split; [reflexivity|]. cbn [snd].
  pose proof (intervals_bound _ Hs) as Hb.
  destruct (avgInterval_spec (intervals (sortByDate txns)) Hb) as [Ha Hab].
  { intros E. rewrite E in Hil. simpl in Hil. lia. }
  { lia. }
  rewrite <- Ha.
  generalize dependent (avgInterval (intervals (sortByDate txns))).
  intros avg _ Havg. clear Hil.
  induction Hb as [|g ivs Hg Hb IH]; simpl.
  - split; [constructor | reflexivity].
  - rewrite andb_true_iff, (within_tolerance g avg Hg Havg), IH.
    split; [intros [? ?]; constructor; assumption|].
    intros HF. apply Forall_cons in HF. exact HF.
Qed.

Lemma isRecurring_slice (txns : list Transaction) :
  (2 <= length txns)%nat -> fst (isRecurring txns) = sortByDate txns.
Proof.
  intros Hlen. unfold isRecurring.
  destruct (Nat.ltb_spec (length txns) 2) as [|_]; [lia|].
  cbv zeta. destruct (_ <? 1)%nat; reflexivity.
Qed.

(** The first of a slice sorted latest first is its latest transaction,
    the last its earliest. *)
Lemma latestFirst_ends (a : list Transaction) first lastT :
  latestFirst a -> head a = Some first -> last a = Some lastT ->
  Forall (fun t => Date lastT <= Date t <= Date first) a.
Proof.
  intros Hs Hh Hl. destruct a as [|x a]; [discriminate|].
  injection Hh as ->. apply Forall_forall. intros t Ht. split.
  - revert t Ht. apply Forall_forall.
    induction a as [|y a IH] in first, Hs, Hl |- *.
    + injection Hl as ->. repeat constructor. lia.
    + apply StronglySorted_inv in Hs as [Hs Hall].
      rewrite last_cons_cons in Hl. specialize (IH y Hs Hl).
      constructor; [|exact IH].
      apply last_Some_elem_of in Hl. rewrite Forall_forall in Hall.
      apply Hall. exact Hl.
  - apply StronglySorted_inv in Hs as [_ Hall].
    apply elem_of_cons in Ht as [->|Hin]; [lia|].
    rewrite Forall_forall in Hall. apply Hall. exact Hin.
Qed.

(** Two date-descending arrangements of the same transactions show the
    same dates in the same places, hence the same gaps. *)
Lemma latestFirst_dates (a b : list Transaction) :
  latestFirst a -> latestFirst b -> a ≡ₚ b -> Date <$> a = Date <$> b.
Proof.
  intros Ha Hb Hp.
  apply (StronglySorted_unique_strong (fun x y : Z => y <= x)).
  - intros x y _ _ H1 H2. lia.
  - apply (StronglySorted_fmap Date _ _ a (fun x y H => H) Ha).
  - apply (StronglySorted_fmap Date _ _ b (fun x y H => H) Hb).
  - rewrite Hp. reflexivity.
Qed.

Lemma intervals_dates (a : list Transaction) : forall b,
  Date <$> a = Date <$> b -> intervals a = intervals b.
Proof.
  induction a as [|x [|y a] IH]; intros [|x' [|y' b]] E;
    try discriminate E; try reflexivity.
  injection E as Ex Ey E.
  change (daysSince (Date x) (Date y) :: intervals (y :: a)
          = daysSince (Date x') (Date y') :: intervals (y' :: b)).
  rewrite Ex, Ey. f_equal.
  apply IH. change (Date y :: (Date <$> a) = Date y' :: (Date <$> b)).
  f_equal; assumption.
Qed.

Lemma avgDays_spec first lastT (len : nat) :
  (2 <= len)%nat ->
  avgDays first lastT len
  = Z.quot (daysSince (Date first) (Date lastT)) (Z.of_nat len - 1).
Proof.
  intros Hlen. unfold avgDays. apply quot_id; [|lia].
  unfold daysSince, maxDurationDays, in_int64, min_int64, max_int64. lia.
Qed.

Lemma unknown_not_a_cadence :
  "unknown" ∉ ["weekly"; "monthly"; "quarterly"; "yearly"].
Proof.
  intros H. repeat (apply elem_of_cons in H as [H|H]; [discriminate|]).
  apply elem_of_nil in H. exact H.
Qed.

Lemma determineFrequency_cases (txns : list Transaction) :
  ((length txns < 2)%nat /\ determineFrequency txns = "unknown")
  \/ ((2 <= length txns)%nat
      /\ determineFrequency txns ∈ ["weekly"; "monthly"; "quarterly"; "yearly"]).
Proof.
  destruct txns as [|first [|second rest]];
    [left; split; [simpl; lia | reflexivity]
    |left; split; [simpl; lia | reflexivity]|].
  right. split; [simpl; lia|].
  unfold determineFrequency.
  destruct (last (first :: second :: rest)) as [lastT|] eqn:El.
  - destruct (_ <=? 8); [set_solver|].
    destruct (_ <=? 35); [set_solver|].
    destruct (_ <=? 95); set_solver.
  - apply last_None in El. discriminate.
Qed.

(** **** Grouping *)

Section DetectFacts.
Context `{GoLib}.

(** The group of key [k]: the transactions that are not skipped and
    have that key, in the order of the input. *)
Lemma groupTransactions_lookup (txns : list Transaction) (k : string) :
  groupTransactions txns !! k
  = match filter (fun t => skipped t = false /\ groupKey t = k) txns with
    | [] => None
    | g => Some g
    end.
Proof.
  unfold groupTransactions.
  induction txns as [|t txns IH] using rev_ind; [reflexivity|].
  rewrite foldl_app, filter_app. cbn [foldl]. unfold addToGroup at 1.
  destruct (skipped t) eqn:Hs.
  - rewrite filter_cons_False by (intros [? _]; congruence).
    rewrite filter_nil, app_nil_r. exact IH.
  - cbv zeta. destruct (decide (groupKey t = k)) as [Hk|Hk].
    + rewrite Hk, lookup_insert_eq, IH.
      rewrite filter_cons_True by (split; assumption). rewrite filter_nil.
      destruct (filter _ txns); reflexivity.
    + rewrite lookup_insert_ne by exact Hk.
      rewrite filter_cons_False by (intros [_ ?]; contradiction).
      rewrite filter_nil, app_nil_r. exact IH.
Qed.

Lemma group_members (txns grp : list Transaction) (k : string) :
  groupTransactions txns !! k = Some grp ->
  grp = filter (fun t => skipped t = false /\ groupKey t = k) txns
  /\ grp <> [].
Proof.
  rewrite groupTransactions_lookup.
  destruct (filter _ txns); [discriminate|].
  intros [= <-]. split; [reflexivity | discriminate].
Qed.

(** Transactions that all land in one group. *)
Lemma groupTransactions_one (txns : list Transaction) (k : string) :
  txns <> [] ->
  Forall (fun t => skipped t = false /\ groupKey t = k) txns ->
  groupTransactions txns = {[ k := txns ]}.
Proof.
  intros Hne Hall. apply map_eq. intros k'.
  rewrite groupTransactions_lookup.
  destruct (decide (k' = k)) as [->|Hk].
  - rewrite lookup_singleton_eq.
    replace (filter _ txns) with txns.
    + destruct txns; [contradiction | reflexivity].
    + symmetry. clear Hne. induction Hall as [|t l Ht Hl IH]; [reflexivity|].
      rewrite filter_cons_True by exact Ht. f_equal. exact IH.
  - rewrite lookup_singleton_ne by congruence.
    replace (filter _ txns) with (@nil Transaction); [reflexivity|].
    symmetry. clear Hne. induction Hall as [|t l Ht Hl IH]; [reflexivity|].
    rewrite filter_cons_False by (intros [_ ?]; destruct Ht; congruence).
    exact IH.
Qed.

(** A subscription is reported exactly when one of the groups yields it. *)
Lemma DetectRecurringTransactions_elem now txns sub :
  sub ∈ DetectRecurringTransactions now txns
  <-> exists k grp,
        groupTransactions txns !! k = Some grp
        /\ detectGroup now grp = Some sub.
Proof.
  unfold DetectRecurringTransactions. rewrite list_elem_of_omap. split.
  - intros ([k grp] & Hin & Hd). apply elem_of_map_to_list in Hin.
    exists k, grp. auto.
  - intros (k & grp & Hl & Hd). exists (k, grp).
    split; [apply elem_of_map_to_list; exact Hl | exact Hd].
Qed.

Lemma DetectRecurringTransactions_one now (txns : list Transaction) k :
  txns <> [] ->
  Forall (fun t => skipped t = false /\ groupKey t = k) txns ->
  DetectRecurringTransactions now txns
  = match detectGroup now txns with Some sub => [sub] | None => [] end.
Proof.
  intros Hne Hall. unfold DetectRecurringTransactions.
  rewrite (groupTransactions_one txns k Hne Hall), map_to_list_singleton.
  simpl. destruct (detectGroup now txns); reflexivity.
Qed.

Lemma detectGroup_short now (txns : list Transaction) :
  (length txns < 2)%nat -> detectGroup now txns = None.
Proof.
  intros Hlen. unfold detectGroup.
  destruct (Nat.ltb_spec (length txns) 2); [reflexivity | lia].
Qed.

(** The subscription of a group of two or more: read off the slice as
    [isRecurring] has sorted it. *)
Lemma detectGroup_spec now (txns : list Transaction) :
  (2 <= length txns)%nat ->
  exists first rest,
    sortByDate txns = first :: rest
    /\ detectGroup now txns
       = if snd (isRecurring txns)
         then Some {| SubMerchantName := MerchantName first;
                      SubAmount := Amount first;
                      Frequency := determineFrequency (sortByDate txns);
                      LastCharge := Date first;
                      NextDue := predictNextDue now (sortByDate txns);
                      SubCategory := Category first |}
         else None.
Proof.
  intros Hlen. destruct (sortByDate_sorted txns) as [Hp _].
  apply Permutation_length in Hp.
  destruct (sortByDate txns) as [|first rest] eqn:Es; [simpl in Hp; lia|].
  exists first, rest. split; [reflexivity|].
  unfold detectGroup.
  destruct (Nat.ltb_spec (length txns) 2) as [|_]; [lia|].
  pose proof (isRecurring_slice txns Hlen) as Hf.
  destruct (isRecurring txns) as [slice b]. simpl in Hf. subst slice.
  rewrite Es. reflexivity.
Qed.

(** C4, amended: a group of two or more transactions (none pending, none
    with a negative amount, all with the same key) is classified as
    recurring, that is, yields a reported subscription, if and only if
    every day-gap between consecutive transactions, taken in
    date-descending order, is within 5 days of the sum of the gaps
    divided by their number and truncated to a whole number of days,
    which is what the code takes for the average gap; the mean itself
    does not do, nor the mean rounded to the nearest day. *)
Theorem recurring_iff_gaps_near_average now (txns grp : list Transaction)
    (k : string) :
  groupTransactions txns !! k = Some grp ->
  (2 <= length grp)%nat -> Z.of_nat (length grp) <= maxLen ->
  Forall (fun t => Pending t = false
                   /\ PrimFloat.ltb (Amount t) 0%float = false
                   /\ groupKey t = k) grp
  /\ forall sorted,
       sorted ≡ₚ grp -> latestFirst sorted ->
       let gaps := intervals sorted in
       let average := Z.quot (Zsum gaps) (Z.of_nat (length gaps)) in
       ((exists sub, detectGroup now grp = Some sub
                     /\ sub ∈ DetectRecurringTransactions now txns)
        <-> Forall (fun gap => Z.abs (gap - average) <= 5) gaps).
Proof.
  intros Hg Hlen Hmax. split.
  - apply group_members in Hg as [-> _]. apply Forall_forall.
    intros t Ht. apply list_elem_of_filter in Ht as [[Hs Hk] _].
    unfold skipped in Hs. apply orb_false_iff in Hs. tauto.
  - intros sorted Hperm Hsorted.
    destruct (sortByDate_sorted grp) as [Hp Hs].
    assert (E : intervals sorted = intervals (sortByDate grp)).
    { apply intervals_dates, latestFirst_dates; [exact Hsorted | exact Hs|].
      rewrite Hperm, Hp. reflexivity. }
    cbv zeta. rewrite E.
    destruct (isRecurring_spec grp Hlen Hmax) as [_ Hiff].
    cbv zeta in Hiff. rewrite <- Hiff.
    destruct (detectGroup_spec now grp Hlen) as (first & rest & _ & Hd).
    rewrite Hd. destruct (snd (isRecurring grp)).
    + split; [reflexivity|]. intros _. eexists. split; [reflexivity|].
      apply DetectRecurringTransactions_elem. exists k, grp.
      split; [exact Hg|]. rewrite Hd. reflexivity.
    + split; [|discriminate]. intros (sub & Hsub & _). discriminate.
Qed.

(** C5: a group of exactly one transaction is never reported; a group
    of exactly two is always reported, whatever the gap between the two
    dates; in particular two transactions that are not pending, have no
    negative amount and share the lowercased merchant name and the
    amount are reported as one subscription. *)
Theorem minimum_support now :
  (forall (txns grp : list Transaction) (k : string),
     groupTransactions txns !! k = Some grp ->
     (length grp = 1%nat -> detectGroup now grp = None)
     /\ (length grp = 2%nat ->
         exists sub, detectGroup now grp = Some sub
                     /\ sub ∈ DetectRecurringTransactions now txns))
  /\ (forall t, DetectRecurringTransactions now [t] = [])
  /\ (forall t1 t2,
       Pending t1 = false -> Pending t2 = false ->
       PrimFloat.ltb (Amount t1) 0%float = false ->
       PrimFloat.ltb (Amount t2) 0%float = false ->
       ToLower (MerchantName t1) = ToLower (MerchantName t2) ->
       Amount t1 = Amount t2 ->
       exists sub, DetectRecurringTransactions now [t1; t2] = [sub]).
Proof.
  assert (Hpair : forall grp : list Transaction, length grp = 2%nat ->
            exists sub, detectGroup now grp = Some sub).
  { intros grp Hlen.
    destruct (detectGroup_spec now grp ltac:(lia)) as (first & rest & _ & Hd).
    destruct (isRecurring_spec grp ltac:(lia) ltac:(unfold maxLen; lia))
      as [_ Hiff].
    cbv zeta in Hiff.
    pose proof (intervals_length (sortByDate grp)) as Hil.
    destruct (sortByDate_sorted grp) as [Hp _].
    rewrite (Permutation_length Hp), Hlen in Hil.
    destruct (intervals (sortByDate grp)) as [|g [|g' ivs]];
      try discriminate Hil.
    assert (Hrec : snd (isRecurring grp) = true).
    { apply Hiff. repeat constructor. simpl.
      unfold Zsum. simpl. rewrite Z.add_0_r, Z.quot_1_r. lia. }
    rewrite Hrec in Hd. eexists. exact Hd. }
  split; [|split].
  - intros txns grp k Hg. split.
    + intros Hlen. apply detectGroup_short. lia.
    + intros Hlen. destruct (Hpair grp Hlen) as [sub Hsub].
      exists sub. split; [exact Hsub|].
      apply DetectRecurringTransactions_elem. exists k, grp. auto.
  - intros t. unfold DetectRecurringTransactions, groupTransactions.
    cbn [foldl]. unfold addToGroup. destruct (skipped t).
    + rewrite map_to_list_empty. reflexivity.
    + cbv zeta. rewrite lookup_empty, insert_empty, map_to_list_singleton.
      reflexivity.
  - intros t1 t2 Hp1 Hp2 Ha1 Ha2 Hm Ha.
    destruct (Hpair [t1; t2] eq_refl) as [sub Hsub]. exists sub.
    rewrite (DetectRecurringTransactions_one now [t1; t2] (groupKey t1));
      [rewrite Hsub; reflexivity | discriminate |].
    assert (Hs1 : skipped t1 = false).
    { unfold skipped. rewrite Hp1, Ha1. reflexivity. }
    assert (Hs2 : skipped t2 = false).
    { unfold skipped. rewrite Hp2, Ha2. reflexivity. }
    assert (Hk : groupKey t2 = groupKey t1).
    { unfold groupKey. rewrite Hm, Ha. reflexivity. }
    repeat constructor; assumption.
Qed.

Lemma detectGroup_some now (grp : list Transaction) sub :
  detectGroup now grp = Some sub ->
  (2 <= length grp)%nat
  /\ snd (isRecurring grp) = true
  /\ exists first rest,
       sortByDate grp = first :: rest
       /\ sub = {| SubMerchantName := MerchantName first;
                   SubAmount := Amount first;
                   Frequency := determineFrequency (sortByDate grp);
                   LastCharge := Date first;
                   NextDue := predictNextDue now (sortByDate grp);
                   SubCategory := Category first |}.
Proof.
  intros Hd.
  destruct (Nat.lt_ge_cases (length grp) 2) as [Hlt|Hge].
  { rewrite detectGroup_short in Hd by exact Hlt. discriminate. }
  split; [exact Hge|].
  destruct (detectGroup_spec now grp Hge) as (first & rest & Es & Hd').
  rewrite Hd' in Hd. destruct (snd (isRecurring grp)); [|discriminate].
  split; [reflexivity|]. exists first, rest. split; [exact Es|].
  congruence.
Qed.

(** C6: for a group reported as recurring, take the average gap as the
    days from the earliest to the latest transaction of the group,
    divided by the number of transactions less one, the division
    truncating. The frequency reported is "weekly" for an average of at
    most 8 days, "monthly" from 9 to 35, "quarterly" from 36 to 95, and
    "yearly" from 96 on. *)
Theorem frequency_by_average_gap now (grp : list Transaction) sub :
  detectGroup now grp = Some sub ->
  exists latest earliest,
    latest ∈ grp /\ earliest ∈ grp
    /\ Forall (fun t => Date earliest <= Date t <= Date latest) grp
    /\ LastCharge sub = Date latest
    /\ let totalSpanDays := daysSince (Date latest) (Date earliest) in
       let average := Z.quot totalSpanDays (Z.of_nat (length grp) - 1) in
       (average <= 8 -> Frequency sub = "weekly")
       /\ (9 <= average <= 35 -> Frequency sub = "monthly")
       /\ (36 <= average <= 95 -> Frequency sub = "quarterly")
       /\ (96 <= average -> Frequency sub = "yearly").
Proof.
  intros Hd.
  apply detectGroup_some in Hd
    as (Hlen & _ & first & rest & Es & ->).
  destruct (sortByDate_sorted grp) as [Hp Hs].
  pose proof (Permutation_length Hp) as Hl.
  rewrite Es in *. destruct rest as [|second rest]; [simpl in Hl; lia|].
  destruct (last (first :: second :: rest)) as [lastT|] eqn:El;
    [|apply last_None in El; discriminate].
  exists first, lastT.
  split; [rewrite <- Hp; apply list_elem_of_here|].
  split; [rewrite <- Hp; apply last_Some_elem_of; exact El|].
  split; [rewrite <- Hp; apply latestFirst_ends; [exact Hs | reflexivity | exact El]|].
  split; [reflexivity|].
  cbn [Frequency]. unfold determineFrequency. rewrite El.
  rewrite avgDays_spec by (simpl; lia). rewrite Hl. cbv zeta.
  set (average := Z.quot _ _).
  destruct (Z.leb_spec average 8); [repeat split; intros; (reflexivity || lia)|].
  destruct (Z.leb_spec average 35); [repeat split; intros; (reflexivity || lia)|].
  destruct (Z.leb_spec average 95); repeat split; intros; (reflexivity || lia).
Qed.

(** C10: every reported subscription has one of the frequencies
    "weekly", "monthly", "quarterly", "yearly", never "unknown": it comes
    from a group of at least two transactions, and [determineFrequency]
    answers "unknown" only for fewer than two. *)
Theorem frequency_never_unknown now (txns : list Transaction) sub :
  sub ∈ DetectRecurringTransactions now txns ->
  Frequency sub ∈ ["weekly"; "monthly"; "quarterly"; "yearly"]
  /\ Frequency sub <> "unknown"
  /\ (exists k grp,
        groupTransactions txns !! k = Some grp
        /\ detectGroup now grp = Some sub
        /\ (2 <= length grp)%nat)
  /\ (forall l, determineFrequency l = "unknown" <-> (length l < 2)%nat).
Proof.
  intros Hin.
  apply DetectRecurringTransactions_elem in Hin as (k & grp & Hg & Hd).
  pose proof (detectGroup_some now grp sub Hd)
    as (Hlen & _ & first & rest & Es & Hsub).
  assert (Hf : Frequency sub ∈ ["weekly"; "monthly"; "quarterly"; "yearly"]).
  { subst sub. cbn [Frequency].
    destruct (determineFrequency_cases (sortByDate grp)) as [[Hlt _]|[_ Hc]];
      [|exact Hc].
    destruct (sortByDate_sorted grp) as [Hp _].
    apply Permutation_length in Hp. lia. }
  split; [exact Hf|]. split.
  - intros E. rewrite E in Hf. exact (unknown_not_a_cadence Hf).
  - split; [exists k, grp; auto|].
    intros l. destruct (determineFrequency_cases l) as [[Hlt Hu]|[Hge Hc]].
    + split; auto.
    + split; [|lia]. intros E. rewrite E in Hc.
      destruct (unknown_not_a_cadence Hc).
Qed.

(** Three charges 30 days apart, once sorted. *)
Lemma detectGroup_monthly now (d : Time) t1 t2 t3 (l : list Transaction) :
  Date t1 = d -> Date t2 = d + 30 -> Date t3 = d + 60 ->
  length l = 3%nat -> sortByDate l = [t3; t2; t1] ->
  detectGroup now l
  = Some {| SubMerchantName := MerchantName t3;
            SubAmount := Amount t3;
            Frequency := "monthly";
            LastCharge := d + 60;
            NextDue := d + 60 + 30;
            SubCategory := Category t3 |}.
Proof.
  intros H1 H2 H3 Hlen Hs.
  assert (G1 : daysSince (d + 60) (d + 30) = 30).
  { rewrite daysSince_near; unfold maxDurationDays; lia. }
  assert (G2 : daysSince (d + 30) d = 30).
  { rewrite daysSince_near; unfold maxDurationDays; lia. }
  assert (G3 : daysSince (d + 60) d = 60).
  { rewrite daysSince_near; unfold maxDurationDays; lia. }
  destruct (detectGroup_spec now l ltac:(lia)) as (first & rest & Es & ->).
  rewrite Hs in Es. injection Es as <- <-.
  assert (Hrec : snd (isRecurring l) = true).
  { unfold isRecurring. rewrite Hlen, Hs. cbn [Nat.ltb Nat.leb intervals].
    rewrite H1, H2, H3, G1, G2. reflexivity. }
  rewrite Hrec, Hs. unfold determineFrequency, predictNextDue, avgDays.
  cbn [last length]. rewrite H1, H3, G3. reflexivity.
Qed.

(** C7: three transactions of merchant "Spotify" that are not pending
    and have the same amount (positive, hence not negative), dated 30
    days apart, in whatever order they come: exactly one subscription
    is returned, "monthly", last charged on the latest of the three
    dates and due 30 days after it. *)
Theorem spotify_monthly now (d : Time) (amount : float) t1 t2 t3
    (l : list Transaction) :
  Forall (fun t => MerchantName t = "Spotify" /\ Amount t = amount
                   /\ Pending t = false) [t1; t2; t3] ->
  PrimFloat.ltb amount 0%float = false ->
  Date t1 = d -> Date t2 = d + 30 -> Date t3 = d + 60 ->
  l ≡ₚ [t1; t2; t3] ->
  DetectRecurringTransactions now l
  = [ {| SubMerchantName := "Spotify";
         SubAmount := amount;
         Frequency := "monthly";
         LastCharge := d + 60;
         NextDue := d + 60 + 30;
         SubCategory := Category t3 |} ].
Proof.
  intros Hall Hamt H1 H2 H3 Hperm.
  set (k := ToLower "Spotify" +:+ "_" +:+ Sprintf_2f amount).
  assert (Hkey : Forall (fun t => skipped t = false /\ groupKey t = k) l).
  { rewrite Hperm. eapply Forall_impl; [exact Hall|].
    intros t (Hm & Ha & Hp). unfold skipped, groupKey.
    rewrite Hm, Ha, Hp, Hamt. split; reflexivity. }
  rewrite (DetectRecurringTransactions_one now l k);
    [|intros ->; apply Permutation_nil_l in Hperm; discriminate|exact Hkey].
  assert (Hs : sortByDate l = [t3; t2; t1]).
  { symmetry in Hperm. apply permutations_Permutation in Hperm.
    rewrite sortByDate_passes.
    cbn in Hperm.
    repeat (apply elem_of_cons in Hperm as [->|Hperm]);
      [..|apply elem_of_nil in Hperm; contradiction];
      repeat (cbn; unfold Before; rewrite ?H1, ?H2, ?H3;
              match goal with
              | |- context [?a <? ?b] => destruct (Z.ltb_spec a b); try lia
              end);
      reflexivity. }
  rewrite (detectGroup_monthly now d t1 t2 t3 l H1 H2 H3
             (Permutation_length Hperm) Hs).
  apply Forall_cons in Hall as [_ Hall].
  apply Forall_cons in Hall as [_ Hall].
  apply Forall_cons in Hall as [(Hm & Ha & _) _].
  rewrite Hm, Ha. reflexivity.
Qed.

End DetectFacts.

(** **** The theorems on a concrete history *)

Example format2f_samples :
  format2f 9.99%float = "9.99" /\ format2f 15.5%float = "15.50"
  /\ format2f 0.125%float = "0.12" /\ format2f 0.375%float = "0.38"
  /\ format2f (-3)%float = "-3.00" /\ format2f 1234.567%float = "1234.57".
Proof. vm_compute. repeat split. Qed.

Example history_groups :
  map_to_list (@groupTransactions asciiLib history)
  ≡ₚ [ ("spotify_9.99", spotifyGroup);
       ("netflix_15.49", [charge "t2" "Netflix" 15.49%float 19010;
                          charge "t6" "Netflix" 15.49%float 19017]);
       ("gym_40.00", [charge "t4" "Gym" 40%float 19012]) ].
Proof.
  vm_compute.
  etransitivity; [apply Permutation_swap|]. apply perm_skip.
  apply Permutation_swap.
Qed.

Example isRecurring_sorts_in_place :
  isRecurring spotifyGroup
  = ([charge "t3" "SPOTIFY" 9.99%float 19060;
      charge "t5" "spotify" 9.99%float 19030;
      charge "t1" "Spotify" 9.99%float 19000], true).
Proof. vm_compute. reflexivity. Qed.

Example frequency_boundaries :
  let pair gap := [charge "b" "Gym" 40%float (19000 + gap);
                   charge "a" "Gym" 40%float 19000] in
  determineFrequency (pair 8) = "weekly"
  /\ determineFrequency (pair 9) = "monthly"
  /\ determineFrequency (pair 35) = "monthly"
  /\ determineFrequency (pair 36) = "quarterly"
  /\ determineFrequency (pair 95) = "quarterly"
  /\ determineFrequency (pair 96) = "yearly"
  /\ determineFrequency [charge "a" "Gym" 40%float 19000] = "unknown".
Proof. vm_compute. repeat split. Qed.

(** The average of [isRecurring] is a whole number of days: the gaps
    0, 8, 8 average to 5 (16 / 3, truncated), so the gap of 0 days is
    within tolerance, although it is more than 5 days from 16/3. *)
Example average_is_truncated :
  let txns := [charge "a" "Cafe" 4%float 0; charge "b" "Cafe" 4%float 8;
               charge "c" "Cafe" 4%float 16; charge "d" "Cafe" 4%float 16] in
  intervals (fst (isRecurring txns)) = [0; 8; 8]
  /\ avgInterval [0; 8; 8] = 5
  /\ snd (isRecurring txns) = true.
Proof. vm_compute. repeat split. Qed.

(** C4, as stated, fails on the code when "the average gap" is the
    mean of the gaps: the four charges of [cafeHistory] form one
    candidate group whose gaps, latest first, are 0, 8 and 9 days, and
    the group is reported as recurring, although the gap of 0 days is
    17/3 days off the mean (|3 * 0 - 17| = 17 > 15, the comparison
    |gap - sum/n| <= 5 multiplied through by n), and 6 days off the
    mean rounded to the nearest day. The code compares with the
    truncated mean, 5. *)
Lemma recurring_despite_gap_off_average :
  let sorted := [charge "c4" "Cafe" 4%float 19017;
                 charge "c3" "Cafe" 4%float 19017;
                 charge "c2" "Cafe" 4%float 19009;
                 charge "c1" "Cafe" 4%float 19000] in
  let gaps := intervals sorted in
  let n := Z.of_nat (length gaps) in
  (2 <= length cafeHistory)%nat
  /\ Forall (fun t => Pending t = false
                      /\ PrimFloat.ltb (Amount t) 0%float = false
                      /\ @groupKey asciiLib t = "cafe_4.00") cafeHistory
  /\ @groupTransactions asciiLib cafeHistory !! "cafe_4.00" = Some cafeHistory
  /\ sorted ≡ₚ cafeHistory /\ latestFirst sorted
  /\ gaps = [0; 8; 9]
  /\ (exists sub,
        @detectGroup 20000 cafeHistory = Some sub
        /\ @DetectRecurringTransactions asciiLib 20000 cafeHistory = [sub])
  /\ ~ Forall (fun gap => Z.abs (gap * n - Zsum gaps) <= 5 * n) gaps
  /\ ~ Forall (fun gap => Z.abs (gap - 6) <= 5) gaps
  /\ Forall (fun gap => Z.abs (gap - Z.quot (Zsum gaps) n) <= 5) gaps.
Proof.
  cbv zeta. split; [simpl; lia|].
  split; [repeat constructor|].
  split; [vm_compute; reflexivity|].
  split; [exact (reverse_Permutation cafeHistory)|].
  split; [unfold latestFirst; repeat constructor; unfold charge; simpl; lia|].
  split; [reflexivity|].
  split; [eexists; split; vm_compute; reflexivity|].
  split; [|split].
  - intros Hall. apply Forall_cons in Hall as [H0 _].
    vm_compute in H0. apply H0. reflexivity.
  - intros Hall. apply Forall_cons in Hall as [H0 _].
    vm_compute in H0. apply H0. reflexivity.
  - repeat constructor; vm_compute; discriminate.
Qed.

Lemma recurring_iff_gaps_near_average_witness :
  let sorted := [charge "t3" "SPOTIFY" 9.99%float 19060;
                 charge "t5" "spotify" 9.99%float 19030;
                 charge "t1" "Spotify" 9.99%float 19000] in
  intervals sorted = [30; 30]
  /\ ((exists sub, @detectGroup 20000 spotifyGroup = Some sub
                   /\ sub ∈ @DetectRecurringTransactions asciiLib 20000
                              history)
      <-> Forall (fun gap => Z.abs (gap - Z.quot (30 + (30 + 0)) 2) <= 5)
                 [30; 30]).
Proof.
  split; [reflexivity|].
  destruct (@recurring_iff_gaps_near_average asciiLib 20000 history
              spotifyGroup "spotify_9.99") as [_ Hiff].
  - vm_compute. reflexivity.
  - simpl. lia.
  - unfold maxLen. simpl. lia.
  - apply (Hiff [charge "t3" "SPOTIFY" 9.99%float 19060;
                 charge "t5" "spotify" 9.99%float 19030;
                 charge "t1" "Spotify" 9.99%float 19000]).
    + unfold spotifyGroup.
      etransitivity; [apply perm_skip, Permutation_swap|].
      etransitivity; [apply Permutation_swap|]. apply perm_skip.
      reflexivity.
    + unfold latestFirst. repeat constructor; simpl; lia.
Defined.

Lemma minimum_support_witness :
  @DetectRecurringTransactions asciiLib 20000
    [charge "t4" "Gym" 40%float 19012] = []
  /\ exists sub,
       @DetectRecurringTransactions asciiLib 20000
         [charge "t4" "Gym" 40%float 19012;
          charge "t9" "GYM" 40%float 14000] = [sub].
Proof.
  destruct (@minimum_support asciiLib 20000) as (_ & Hone & Htwo).
  split; [apply Hone|].
  apply Htwo; reflexivity.
Defined.

Lemma frequency_by_average_gap_witness :
  exists latest earliest,
    latest ∈ spotifyGroup /\ earliest ∈ spotifyGroup
    /\ Forall (fun t => Date earliest <= Date t <= Date latest) spotifyGroup
    /\ LastCharge spotifySubscription = Date latest
    /\ let totalSpanDays := daysSince (Date latest) (Date earliest) in
       let average :=
         Z.quot totalSpanDays (Z.of_nat (length spotifyGroup) - 1) in
       (average <= 8 -> Frequency spotifySubscription = "weekly")
       /\ (9 <= average <= 35 -> Frequency spotifySubscription = "monthly")
       /\ (36 <= average <= 95 -> Frequency spotifySubscription = "quarterly")
       /\ (96 <= average -> Frequency spotifySubscription = "yearly").
Proof.
  apply (@frequency_by_average_gap 20000 spotifyGroup spotifySubscription).
  vm_compute. reflexivity.
Defined.

Lemma spotify_monthly_witness :
  @DetectRecurringTransactions asciiLib 20000
    [charge "t5" "Spotify" 9.99%float 19030;
     charge "t1" "Spotify" 9.99%float 19000;
     charge "t3" "Spotify" 9.99%float 19060]
  = [ {| SubMerchantName := "Spotify"; SubAmount := 9.99%float;
         Frequency := "monthly"; LastCharge := 19000 + 60;
         NextDue := 19000 + 60 + 30;
         SubCategory := ["Service"; "Subscription"] |} ].
Proof.
  apply (@spotify_monthly asciiLib 20000 19000 9.99%float
           (charge "t1" "Spotify" 9.99%float 19000)
           (charge "t5" "Spotify" 9.99%float 19030)
           (charge "t3" "Spotify" 9.99%float 19060)).
  - repeat constructor.
  - reflexivity.
  - reflexivity.
  - reflexivity.
  - reflexivity.
  - apply Permutation_swap.
Defined.

Lemma frequency_never_unknown_witness :
  Frequency spotifySubscription ∈ ["weekly"; "monthly"; "quarterly"; "yearly"]
  /\ Frequency spotifySubscription <> "unknown".
Proof.
  destruct (@frequency_never_unknown asciiLib 20000 history
              spotifySubscription) as (Hin & Hne & _).
  - vm_compute. apply list_elem_of_here.
  - split; assumption.
Defined.

End PlaidFacts.

(** ** More on [EstimateTaxes] and its callers *)
Module EstimateMore.
Import GoInt GoIntFacts Estimate EstimateFacts Server.
Local Open Scope Z_scope.

#[local] Hint Rewrite @snd_bind @snd_query_got @snd_query_failed @snd_fail
  @snd_lift @snd_ret : estimate.

Lemma fst_bind {A B} (k : A -> M B) (m : M A) :
  fst (x ← m; k x)
  = fst m ++ match snd m with Ok a => fst (k a) | _ => [] end.
Proof.
  unfold mbind, M_bind, bind. destruct m as [t [a|e|e]]; simpl;
    try (rewrite app_nil_r; reflexivity).
  destruct (k a); reflexivity.
Qed.

Lemma fst_query {A} q f (r : fetched A) : fst (query q f r) = [q].
Proof. destruct r; reflexivity. Qed.

Lemma fst_lift {A} (o : outcome A) : fst (lift o) = [].
Proof. reflexivity. Qed.

Lemma fst_ret {A} (a : A) : fst (ret a) = [].
Proof. reflexivity. Qed.

Lemma fst_fail {A} e : fst (@fail A e) = [].
Proof. reflexivity. Qed.

Create Rewrite HintDb estimate_log.
#[local] Hint Rewrite @fst_bind @fst_query @fst_lift @fst_ret @fst_fail
  @snd_bind @snd_query_got @snd_query_failed @snd_fail @snd_lift @snd_ret
  : estimate_log.





(** X2: when the income is between 0 and the standard deduction, and
    small enough for income * 765 not to exceed 2^63 - 1, the federal
    and the state tax are 0 whatever the bracket tables hold (they need
    not even cover [0, oo)); FICA is still charged on the gross income,
    income * 765 / 10000 rounded down, and the term net is the income
    less FICA. *)
Theorem income_within_deduction d income state year payFreq termWeeks sd
    ftbl stbl :
  std_deduction_single d year = Got sd ->
  0 <= income <= sd -> in_int64 sd -> income * 765 <= max_int64 ->
  scans (federal_rows d year) ftbl ->
  (state = "" \/ scans (state_rows d year state) stbl) ->
  exists r,
    snd (EstimateTaxes d income state "single" year payFreq termWeeks) = Ok r
    /\ FederalCents r = 0 /\ StateCents r = 0
    /\ FicaCents r = income * 765 / 10000
    /\ TermNetCents r = income - income * 765 / 10000.
Proof.
  intros Hsd Hinc Hsdi Hfica Hf Hs.
  assert (HT : clampTaxable income sd = 0).
  { unfold clampTaxable.
    rewrite sub_id by (unfold in_int64, min_int64, max_int64 in *; lia).
    destruct (Z.ltb_spec (income - sd) 0); lia. }
  assert (Hwalk : forall tbl,
            bracketWalk (clampTaxable income sd) (Scanned <$> tbl)
            = Ok {| tax := 0; remaining := 0; segments := [] |}).
  { intros tbl. rewrite HT. apply bracketLoop_done. simpl. lia. }
  assert (Hq : 0 <= income * 765 / 10000 <= income).
  { split; [apply Z.div_pos; lia|]. apply Z.div_le_upper_bound; lia. }
  assert (Ef : quot (mul income 765) 10000 = income * 765 / 10000).
  { unfold max_int64 in Hfica.
    rewrite mul_id by (unfold in_int64, min_int64, max_int64; lia).
    apply quot_nonneg; [lia | exact Hfica | lia]. }
  destruct (EstimateTaxes_single d income state year payFreq termWeeks sd
              (Scanned <$> ftbl) _ 0 Hsd Hf (Hwalk ftbl)) as (p & _ & Hr).
  { destruct (string_dec state "") as [He|He]; [left; auto|].
    destruct Hs as [Hs|Hs]; [contradiction|].
    right. split; [exact He|].
    exists (Scanned <$> stbl), {| tax := 0; remaining := 0; segments := [] |}.
    split; [exact Hs|]. split; [apply Hwalk | reflexivity]. }
  eexists. split; [exact Hr|]. cbn [FederalCents StateCents FicaCents
                                    TermNetCents tax].
  rewrite Ef. repeat split.
  unfold add. rewrite !Z.add_0_l.
  rewrite (wrap64_id (income * 765 / 10000))
    by (unfold in_int64, min_int64, max_int64 in *; lia).
  apply sub_id. unfold in_int64, min_int64, max_int64 in *. lia.
Qed.

Lemma income_within_deduction_witness :
  exists r,
    snd (EstimateTaxes scenarioDB 1000000 "CA" "single" 2024 "weekly" 12)
    = Ok r
    /\ FederalCents r = 0 /\ StateCents r = 0
    /\ FicaCents r = 76500
    /\ TermNetCents r = 923500.
Proof.
  exact (income_within_deduction scenarioDB 1000000 "CA" 2024 "weekly" 12
           1385000 [mkBracket 0 0 2200] [mkBracket 0 0 500]
           eq_refl ltac:(lia)
           ltac:(unfold in_int64, min_int64, max_int64; lia)
           ltac:(unfold max_int64; lia)
           eq_refl (or_intror eq_refl)).
Defined.

(** X3: the paychecks never add up to more than the term's net pay in
    size: whenever a result is returned and there is a positive number
    of paychecks, perPaycheckNetCents is termNetCents divided by that
    number and truncated, so the paychecks miss the term net by less
    than one cent per paycheck; with no paycheck (zero or a negative
    number of weeks) perPaycheckNetCents is 0. *)
Theorem paychecks_share_term_net d income state fs year payFreq termWeeks r :
  snd (EstimateTaxes d income state fs year payFreq termWeeks) = Ok r ->
  let checks := paychecks payFreq termWeeks in
  (checks <= 0 -> PerPaycheckNetCents r = 0)
  /\ (0 < checks ->
      PerPaycheckNetCents r = Z.quot (TermNetCents r) checks
      /\ Z.abs (TermNetCents r - checks * PerPaycheckNetCents r) < checks
      /\ Z.abs (checks * PerPaycheckNetCents r) <= Z.abs (TermNetCents r)).
Proof.
  intros Hr. cbv zeta.
  apply EstimateTaxes_ok_inv in Hr
    as (_ & sd & frows & fw & st & _ & _ & _ & _ & _ & _ & _ & Hnet & Hp).
  assert (Hrange : in_int64 (TermNetCents r)).
  { rewrite Hnet. apply wrap64_range. }
  split.
  - intros Hc. destruct (Z.ltb_spec 0 (paychecks payFreq termWeeks)); [lia|].
    congruence.
  - intros Hc. destruct (Z.ltb_spec 0 (paychecks payFreq termWeeks)); [|lia].
    unfold div in Hp.
    destruct (Z.eqb_spec (paychecks payFreq termWeeks) 0); [lia|].
    injection Hp as Hp. rewrite quot_id in Hp by assumption.
    split; [congruence|]. rewrite <- Hp.
    set (net := TermNetCents r) in *.
    set (c := paychecks payFreq termWeeks) in *.
    pose proof (Z.quot_rem' net c) as Hqr.
    pose proof (Z.rem_bound_abs net c ltac:(lia)) as Hb.
    assert (Hq : 0 <= net -> 0 <= Z.quot net c).
    { intros. apply Z.quot_pos; lia. }
    assert (Hq' : net < 0 -> Z.quot net c <= 0).
    { intros. pose proof (Z.quot_opp_l net c ltac:(lia)).
      pose proof (Z.quot_pos (- net) c ltac:(lia) Hc). lia. }
    assert (Hm : 0 <= net -> 0 <= Z.rem net c).
    { intros. apply Z.rem_nonneg; lia. }
    assert (Hm' : net < 0 -> Z.rem net c <= 0).
    { intros. apply Z.rem_nonpos; lia. }
    clearbody net c.
    set (q := Z.quot net c) in *. set (m := Z.rem net c) in *.
    clearbody q m. split; [lia | nia].
Qed.

Lemma paychecks_share_term_net_witness :
  PerPaycheckNetCents (mkTaxResult 839300 190750 397800 628691 3772150)
  = Z.quot 3772150 6
  /\ Z.abs (3772150 - 6 * 628691) < 6.
Proof.
  destruct (paychecks_share_term_net scenarioDB 5200000 "CA" "single" 2024
              "biweekly" 12 (mkTaxResult 839300 190750 397800 628691 3772150))
    as [_ H].
  - reflexivity.
  - destruct H as (H1 & H2 & _); [reflexivity|]. split; assumption.
Defined.

(** X4: with bracket tables that are absent or cover [0, oo), rates
    of at most 100% and no overflow, neither the federal nor the state
    tax is negative or exceeds the taxable income, FICA is 7.65% of the
    gross income rounded down, and termNetCents is exactly the income
    less the three taxes. *)
Theorem taxes_within_taxable_income d state year payFreq termWeeks sd
    ftbl stbl income :
  std_deduction_single d year = Got sd -> 0 <= sd -> in_int64 sd ->
  scans (federal_rows d year) ftbl -> usable ftbl ->
  (state = "" \/ scans (state_rows d year state) stbl /\ usable stbl) ->
  0 <= income -> income * 10000 <= max_int64 ->
  exists r,
    snd (EstimateTaxes d income state "single" year payFreq termWeeks) = Ok r
    /\ 0 <= FederalCents r <= Z.max 0 (income - sd)
    /\ 0 <= StateCents r <= Z.max 0 (income - sd)
    /\ FicaCents r = income * 765 / 10000
    /\ TermNetCents r
       = income - FederalCents r - StateCents r - FicaCents r.
Proof.
  intros Hsd Hsd0 Hsdi Hf Hfu Hs Hinc Hmax.
  assert (Hii : in_int64 income).
  { unfold in_int64, min_int64, max_int64 in *. lia. }
  pose proof (clampTaxable_spec income sd Hinc Hii Hsd0 Hsdi) as HT.
  assert (HT2 : 0 <= clampTaxable income sd <= clampTaxable income sd) by lia.
  assert (HTm : clampTaxable income sd * 10000 <= max_int64) by lia.
  destruct (bracketWalk_mono ftbl _ _ Hfu HT2 HTm)
    as (fw & fw' & Hfw & Hfw' & Hfb & Hfb').
  rewrite Hfw in Hfw'. injection Hfw' as <-.
  destruct (fica_mono income income ltac:(lia) Hmax) as (Ef & _ & _).
  assert (Hstate : exists st,
    (state = "" /\ st = 0 \/
     state <> "" /\ exists srows sw,
       state_rows d year state = Got srows /\
       bracketWalk (clampTaxable income sd) srows = Ok sw /\ st = tax sw)
    /\ 0 <= st <= clampTaxable income sd).
  { destruct (string_dec state "") as [He|He].
    - exists 0. split; [left; auto | lia].
    - destruct Hs as [Hs|[Hs Hsu]]; [contradiction|].
      destruct (bracketWalk_mono stbl _ _ Hsu HT2 HTm)
        as (sw & sw' & Hsw & Hsw' & Hsb & Hsb').
      rewrite Hsw in Hsw'. injection Hsw' as <-.
      exists (tax sw). split; [|lia].
      right. split; [exact He|]. exists (Scanned <$> stbl), sw. auto. }
  destruct Hstate as (st & Hst & Hstb).
  destruct (EstimateTaxes_single d income state year payFreq termWeeks sd
              _ fw st Hsd Hf Hfw Hst) as (p & _ & Hr).
  eexists. split; [exact Hr|].
  cbn [FederalCents StateCents FicaCents TermNetCents]. rewrite Ef, <- HT.
  assert (Hq : 0 <= income * 765 / 10000 <= income).
  { split; [apply Z.div_pos; lia|]. apply Z.div_le_upper_bound; lia. }
  split; [lia|]. split; [lia|]. split; [reflexivity|].
  unfold max_int64 in Hmax.
  rewrite (add_id (tax fw) st)
    by (unfold in_int64, min_int64, max_int64; lia).
  rewrite add_id by (unfold in_int64, min_int64, max_int64; lia).
  rewrite sub_id by (unfold in_int64, min_int64, max_int64; lia).
  lia.
Qed.

Lemma taxes_within_taxable_income_witness :
  exists r,
    snd (EstimateTaxes scenarioDB 5200000 "CA" "single" 2024 "biweekly" 12)
    = Ok r
    /\ 0 <= FederalCents r <= Z.max 0 (5200000 - 1385000)
    /\ 0 <= StateCents r <= Z.max 0 (5200000 - 1385000)
    /\ FicaCents r = 5200000 * 765 / 10000
    /\ TermNetCents r
       = 5200000 - FederalCents r - StateCents r - FicaCents r.
Proof.
  apply (taxes_within_taxable_income scenarioDB "CA" 2024 "biweekly" 12
           1385000 [mkBracket 0 0 2200] [mkBracket 0 0 500] 5200000).
  - reflexivity.
  - lia.
  - unfold in_int64, min_int64, max_int64. lia.
  - reflexivity.
  - split; [right; repeat split; reflexivity|].
    split; repeat constructor; unfold in_int64, min_int64, max_int64;
      simpl; lia.
  - right. split; [reflexivity|].
    split; [right; repeat split; reflexivity|].
    split; repeat constructor; unfold in_int64, min_int64, max_int64;
      simpl; lia.
  - lia.
  - unfold max_int64. lia.
Defined.

Lemma bracket_walk_done (T : Z) (tbl : list Bracket) :
  0 <= T -> in_int64 T -> covers tbl -> fits tbl ->
  exists w, bracketWalk T (Scanned <$> tbl) = Ok w /\ remaining w = 0.
Proof.
  intros HT HTr Hc Hf. apply covers_chained in Hc.
  destruct (walk_chained tbl 0 T
              {| tax := 0; remaining := T; segments := [] |}
              Hc Hf ltac:(lia) HT HTr) as (w & Hrun & Hr0 & _).
  { simpl. lia. }
  exists w. auto.
Qed.

Lemma bracketLoop_app_done T rows extra : forall w w',
  bracketLoop T rows w = Ok w' -> remaining w' <= 0 ->
  bracketLoop T (rows ++ (Scanned <$> extra)) w = Ok w'.
Proof.
  induction rows as [|[[lo hi r]|e] rows IH]; intros w w' Hrun Hdone.
  - injection Hrun as ->. apply bracketLoop_done. exact Hdone.
  - cbn [app bracketLoop] in *.
    destruct (remaining w <=? 0); [exact Hrun|]. apply IH; assumption.
  - discriminate Hrun.
Qed.

(** X5: rows that follow the open-ended top bracket of a covering table
    are never taxed: appending any rows to such a table leaves the
    bracket walk, segments included, as it was. *)
Theorem rows_after_top_bracket_ignored (T : Z) (tbl extra : list Bracket) :
  0 <= T -> in_int64 T -> covers tbl -> fits tbl ->
  bracketWalk T (Scanned <$> (tbl ++ extra))
  = bracketWalk T (Scanned <$> tbl).
Proof.
  intros HT HTr Hc Hf.
  destruct (bracket_walk_done T tbl HT HTr Hc Hf) as (w & Hrun & Hr0).
  rewrite fmap_app, Hrun. unfold bracketWalk in *.
  apply bracketLoop_app_done; [exact Hrun | lia].
Qed.

Lemma rows_after_top_bracket_ignored_witness :
  bracketWalk 9000000
    (Scanned <$> (federal2024 ++ [mkBracket 10052500 0 2400]))
  = bracketWalk 9000000 (Scanned <$> federal2024).
Proof.
  apply (rows_after_top_bracket_ignored 9000000 federal2024).
  - lia.
  - unfold in_int64, min_int64, max_int64. lia.
  - repeat split; simpl; lia.
  - repeat constructor; unfold in_int64, min_int64, max_int64; simpl; lia.
Defined.

(** **** The handlers *)

Lemma EstimateTaxes_std_failed d income state year payFreq termWeeks e :
  std_deduction_single d year = Failed e ->
  snd (EstimateTaxes d income state "single" year payFreq termWeeks)
  = Err ("failed to fetch std deduction: " +:+ e).
Proof. intros Hsd. unfold EstimateTaxes. rewrite Hsd. reflexivity. Qed.

(** X6: the tax endpoint answers 200 or 400 and nothing else. It never
    answers 500, since [EstimateTaxes] cannot panic; a failure of the
    database is reported as a 400 with the driver's message, like an
    unsupported filing status; and the answer is 200 exactly when
    [EstimateTaxes] returns a result, which is then the body. *)
Theorem tax_endpoint_status d year (bound : fetched TaxBody) :
  let resp := snd (taxHandler d year bound) in
  (status resp = StatusOK \/ status resp = StatusBadRequest)
  /\ (status resp = StatusOK <->
      exists body r,
        bound = Got body
        /\ snd (EstimateTaxes d (IncomeCents body) (State body)
                  (FilingStatus body) year (PayFreq body) (TermWeeks body))
           = Ok r
        /\ payload resp = ResultJSON r)
  /\ (forall body e,
        bound = Got body -> FilingStatus body = "single" ->
        std_deduction_single d year = Failed e ->
        resp = mkResponse StatusBadRequest
                 (ErrorJSON ("failed to fetch std deduction: " +:+ e))).
Proof.
  cbv zeta. destruct bound as [body|e]; cbn [taxHandler].
  - pose proof (EstimateTaxes_no_panic d (IncomeCents body) (State body)
                  (FilingStatus body) year (PayFreq body) (TermWeeks body))
      as Hnp.
    destruct (EstimateTaxes d (IncomeCents body) (State body)
                (FilingStatus body) year (PayFreq body) (TermWeeks body))
      as [log [r|msg|msg]] eqn:Hrun; cbn [snd status payload] in *.
    + split; [left; reflexivity|]. split.
      * split; [intros _; exists body, r; rewrite Hrun; auto | reflexivity].
      * intros body' e [= <-] Hfs Hsd.
        apply (f_equal snd) in Hrun. cbn [snd] in Hrun.
        rewrite Hfs, (EstimateTaxes_std_failed _ _ _ _ _ _ _ Hsd) in Hrun.
        discriminate Hrun.
    + split; [right; reflexivity|]. split.
      * split; [intros [=]|]. intros (body' & r & [= <-] & Hr & _).
        rewrite Hrun in Hr. discriminate Hr.
      * intros body' e [= <-] Hfs Hsd.
        apply (f_equal snd) in Hrun. cbn [snd] in Hrun.
        rewrite Hfs, (EstimateTaxes_std_failed _ _ _ _ _ _ _ Hsd) in Hrun.
        injection Hrun as <-. reflexivity.
    + destruct (Hnp msg eq_refl).
  - split; [right; reflexivity|]. split.
    + split; [intros [=]|]. intros (body & r & [=] & _).
    + intros body e' [=].
Qed.

Lemma tax_endpoint_status_witness :
  snd (taxHandler
         {| std_deduction_single := fun _ => Failed "connection refused";
            federal_rows := fun _ => Failed "connection refused";
            state_rows := fun _ _ => Failed "connection refused" |}
         2024 (Got (mkTaxBody 5200000 "CA" "single" "biweekly" 12)))
  = mkResponse StatusBadRequest
      (ErrorJSON "failed to fetch std deduction: connection refused").
Proof.
  eapply (tax_endpoint_status
            {| std_deduction_single := fun _ => Failed "connection refused";
               federal_rows := fun _ => Failed "connection refused";
               state_rows := fun _ _ => Failed "connection refused" |}
            2024 (Got (mkTaxBody 5200000 "CA" "single" "biweekly" 12)));
    reflexivity.
Defined.

Lemma flat_bracket_walk T rate pct :
  0 <= T -> T * 10000 <= max_int64 -> rate = pct * 100 -> 0 <= pct <= 100 ->
  exists w,
    bracketWalk T [Scanned (mkBracket 0 0 rate)] = Ok w
    /\ tax w = quot (mul T pct) 100.
Proof.
  intros HT Hmax -> Hpct. unfold bracketWalk. cbn [bracketLoop remaining].
  unfold max_int64 in Hmax.
  assert (E : quot (mul T pct) 100 = T * pct / 100).
  { rewrite mul_id by (unfold in_int64, min_int64, max_int64; nia).
    apply quot_nonneg; unfold max_int64; nia. }
  destruct (Z.leb_spec T 0) as [Hz|Hpos].
  - eexists. split; [reflexivity|]. cbn [tax].
    replace T with 0 by lia. reflexivity.
  - cbn [Z.eqb]. eexists. split; [reflexivity|]. cbn [tax]. rewrite E.
    rewrite (sub_id T 0) by (unfold in_int64, min_int64, max_int64; lia).
    rewrite Z.sub_0_r, min_spec, Z.min_id.
    rewrite mul_id by (unfold in_int64, min_int64, max_int64; nia).
    rewrite quot_nonneg by (unfold max_int64; nia).
    assert (Hq : 0 <= T * (pct * 100) / 10000 <= T).
    { split; [apply Z.div_pos; nia|]. apply Z.div_le_upper_bound; nia. }
    rewrite add_id by (unfold in_int64, min_int64, max_int64; lia).
    rewrite Z.add_0_l.
    replace (T * (pct * 100)) with (T * pct * 100) by ring.
    change 10000 with (100 * 100).
    apply Z.div_mul_cancel_r; lia.
Qed.

(** X7: the demo-mode handler and the database-backed handler give the
    same answer for a single filer, when the database holds the demo's
    model (deduction 1,385,000 cents, one federal bracket at 2200 basis
    points, one state bracket at 500), a state is named and the income
    is between 0 and (2^63 - 1) / 10000 cents. *)
Theorem demo_handler_agrees d year (body : TaxBody) :
  std_deduction_single d year = Got 1385000 ->
  federal_rows d year = Got [Scanned (mkBracket 0 0 2200)] ->
  state_rows d year (State body) = Got [Scanned (mkBracket 0 0 500)] ->
  State body <> "" -> FilingStatus body = "single" ->
  0 <= IncomeCents body -> IncomeCents body * 10000 <= max_int64 ->
  snd (taxHandler d year (Got body)) = demoTaxHandler (Got body).
Proof.
  intros Hsd Hf Hs Hst Hfs Hinc Hmax.
  assert (Hii : in_int64 (IncomeCents body)).
  { unfold in_int64, min_int64, max_int64 in *. lia. }
  pose proof (clampTaxable_spec (IncomeCents body) 1385000 Hinc Hii
                ltac:(lia)
                ltac:(unfold in_int64, min_int64, max_int64; lia)) as HT.
  assert (HT0 : 0 <= clampTaxable (IncomeCents body) 1385000) by lia.
  assert (HTm : clampTaxable (IncomeCents body) 1385000 * 10000 <= max_int64)
    by lia.
  destruct (flat_bracket_walk _ 2200 22 HT0 HTm eq_refl ltac:(lia))
    as (fw & Hfw & Hft).
  destruct (flat_bracket_walk _ 500 5 HT0 HTm eq_refl ltac:(lia))
    as (sw & Hsw & Hstx).
  destruct (EstimateTaxes_single d (IncomeCents body) (State body) year
              (PayFreq body) (TermWeeks body) 1385000 _ fw (tax sw)
              Hsd Hf Hfw) as (p & Hp & Hr).
  { right. split; [exact Hst|]. eexists; eexists.
    split; [exact Hs|]. split; [exact Hsw | reflexivity]. }
  cbv zeta in Hp.
  cbn [taxHandler demoTaxHandler]. rewrite Hfs.
  destruct (EstimateTaxes d (IncomeCents body) (State body) "single" year
              (PayFreq body) (TermWeeks body)) as [log res].
  cbn [snd] in *. subst res.
  unfold demoTaxes. fold (clampTaxable (IncomeCents body) 1385000).
  rewrite <- Hft, <- Hstx. fold (paychecks (PayFreq body) (TermWeeks body)).
  rewrite Hp. reflexivity.
Qed.

Lemma demo_handler_agrees_witness :
  snd (taxHandler scenarioDB 2024
         (Got (mkTaxBody 5200000 "CA" "single" "biweekly" 12)))
  = demoTaxHandler (Got (mkTaxBody 5200000 "CA" "single" "biweekly" 12)).
Proof.
  apply (demo_handler_agrees scenarioDB 2024
           (mkTaxBody 5200000 "CA" "single" "biweekly" 12)).
  - reflexivity.
  - reflexivity.
  - reflexivity.
  - discriminate.
  - reflexivity.
  - simpl. lia.
  - unfold max_int64. simpl. lia.
Defined.

End EstimateMore.

(** ** More on the recurring-charge detector *)
Module PlaidMore.
Import GoInt GoIntFacts Plaid PlaidFacts.
Local Open Scope Z_scope.

(** X16: [abs] returns the absolute value of every int but the most
    negative one, which it returns unchanged: the negation wraps
    around. So [abs] is negative for exactly that one argument. *)
Theorem abs_most_negative (x : Z) :
  in_int64 x ->
  (x <> min_int64 -> abs x = Z.abs x)
  /\ abs min_int64 = min_int64
  /\ (abs x < 0 <-> x = min_int64).
Proof.
  intros Hx.
  assert (Hmin : abs min_int64 = min_int64) by (vm_compute; reflexivity).
  assert (Hreg : x <> min_int64 -> abs x = Z.abs x).
  { intros Hne. unfold abs. destruct (Z.ltb_spec x 0); [|lia].
    rewrite wrap64_id; unfold in_int64, min_int64, max_int64 in *; lia. }
  split; [exact Hreg|]. split; [exact Hmin|]. split.
  - intros Hneg. destruct (Z.eq_dec x min_int64) as [E|E]; [exact E|].
    rewrite (Hreg E) in Hneg. lia.
  - intros ->. rewrite Hmin. unfold min_int64. lia.
Qed.

Lemma abs_most_negative_witness :
  abs (-30) = Z.abs (-30) /\ abs min_int64 = min_int64.
Proof.
  destruct (abs_most_negative (-30)) as (H1 & H2 & _).
  - unfold in_int64, min_int64, max_int64. lia.
  - split; [apply H1; unfold min_int64; lia | exact H2].
Defined.

(** **** Sorting a sorted slice *)

Lemma sortPass_sorted cur rest :
  Forall (fun x => Date x <= Date cur) rest -> sortPass cur rest = (cur, rest).
Proof.
  induction 1 as [|x rest Hx _ IH]; [reflexivity|].
  cbn [sortPass]. unfold Before.
  destruct (Z.ltb_spec (Date cur) (Date x)); [lia|]. rewrite IH. reflexivity.
Qed.

Lemma sortPasses_sorted_id n : forall a,
  latestFirst a -> sortPasses n a = a.
Proof.
  induction n as [|n IH]; intros a Hs; [destruct a; reflexivity|].
  destruct a as [|cur rest]; [reflexivity|].
  apply StronglySorted_inv in Hs as [Hs Hall].
  cbn [sortPasses]. rewrite (sortPass_sorted cur rest Hall).
  rewrite (IH rest Hs). reflexivity.
Qed.

Lemma latestFirst_short (a : list Transaction) :
  (length a < 2)%nat -> latestFirst a.
Proof.
  destruct a as [|x [|y a]]; simpl; intros H; try lia; repeat constructor.
Qed.

(** X11: [isRecurring] leaves the caller's slice holding the same
    transactions, latest first, and running it again on that slice
    changes nothing: the slice stays as it is and the verdict is the
    same. *)
Theorem isRecurring_idempotent (txns : list Transaction) :
  fst (isRecurring txns) ≡ₚ txns
  /\ latestFirst (fst (isRecurring txns))
  /\ isRecurring (fst (isRecurring txns)) = isRecurring txns.
Proof.
  destruct (Nat.lt_ge_cases (length txns) 2) as [Hlt|Hge].
  - assert (E : isRecurring txns = (txns, false)).
    { unfold isRecurring.
      destruct (Nat.ltb_spec (length txns) 2); [reflexivity | lia]. }
    rewrite E. cbn [fst]. split; [reflexivity|].
    split; [apply latestFirst_short; exact Hlt | exact E].
  - rewrite (isRecurring_slice txns Hge).
    destruct (sortByDate_sorted txns) as [Hp Hs].
    split; [exact Hp|]. split; [exact Hs|].
    assert (Eid : sortByDate (sortByDate txns) = sortByDate txns).
    { rewrite (sortByDate_passes (sortByDate txns)).
      apply sortPasses_sorted_id. exact Hs. }
    unfold isRecurring.
    rewrite (Permutation_length Hp), Eid.
    destruct (Nat.ltb_spec (length txns) 2); [lia | reflexivity].
Qed.

(** **** What a reported subscription says *)

Lemma predictNextDue_clock now now' (l : list Transaction) :
  (2 <= length l)%nat -> predictNextDue now l = predictNextDue now' l.
Proof.
  destruct l as [|x [|y l]]; simpl; intros H; try lia.
  destruct (last (y :: l)) eqn:El; [reflexivity|].
  apply last_None in El. discriminate.
Qed.

Section More.
Context `{GoLib}.

Lemma detectGroup_clock now now' (grp : list Transaction) :
  detectGroup now grp = detectGroup now' grp.
Proof.
  destruct (Nat.lt_ge_cases (length grp) 2) as [Hlt|Hge].
  - rewrite !detectGroup_short by exact Hlt. reflexivity.
  - destruct (detectGroup_spec now grp Hge) as (f1 & r1 & E1 & ->).
    destruct (detectGroup_spec now' grp Hge) as (f2 & r2 & E2 & ->).
    rewrite E1 in E2. injection E2 as <- <-.
    rewrite (predictNextDue_clock now now' (sortByDate grp)).
    + reflexivity.
    + destruct (sortByDate_sorted grp) as [Hp _].
      rewrite (Permutation_length Hp). exact Hge.
Qed.

(** X8: detection never reads the clock: [predictNextDue] falls back on
    [time.Now()] only for fewer than two transactions, and no such
    group is ever passed to it. *)
Theorem detection_ignores_clock now now' (txns : list Transaction) :
  DetectRecurringTransactions now txns = DetectRecurringTransactions now' txns.
Proof.
  unfold DetectRecurringTransactions.
  induction (map_to_list (groupTransactions txns)) as [|kv l IH];
    [reflexivity|].
  cbn [omap list_omap]. rewrite (detectGroup_clock now now' (snd kv)).
  destruct (detectGroup now' kv.2); [f_equal|]; exact IH.
Qed.

(** X9: the next due date of a reported subscription is its last
    charge plus the average gap that decided its frequency: it is never
    before the last charge and at most 106751 days after it, and the
    subscription is "weekly" exactly when the two dates are at most 8
    days apart, "monthly" for 9 to 35 days, "quarterly" for 36 to 95
    and "yearly" from 96 days on. *)
Theorem next_due_matches_frequency now (txns : list Transaction) sub :
  sub ∈ DetectRecurringTransactions now txns ->
  let gap := NextDue sub - LastCharge sub in
  0 <= gap <= maxDurationDays
  /\ (Frequency sub = "weekly" <-> gap <= 8)
  /\ (Frequency sub = "monthly" <-> 9 <= gap <= 35)
  /\ (Frequency sub = "quarterly" <-> 36 <= gap <= 95)
  /\ (Frequency sub = "yearly" <-> 96 <= gap).
Proof.
  intros Hin.
  apply DetectRecurringTransactions_elem in Hin as (k & grp & _ & Hd).
  apply detectGroup_some in Hd as (Hlen & _ & first & rest & Es & ->).
  destruct (sortByDate_sorted grp) as [Hp Hs].
  pose proof (Permutation_length Hp) as Hl.
  rewrite Es in *. destruct rest as [|second rest]; [simpl in Hl; lia|].
  destruct (last (first :: second :: rest)) as [lastT|] eqn:El;
    [|apply last_None in El; discriminate].
  cbn [NextDue LastCharge Frequency].
  unfold predictNextDue, determineFrequency, AddDays. rewrite El.
  rewrite avgDays_spec by (simpl; lia).
  replace (Date first + _ - Date first)
    with (Z.quot (daysSince (Date first) (Date lastT))
            (Z.of_nat (length (first :: second :: rest)) - 1)) by lia.
  pose proof (latestFirst_ends _ first lastT Hs eq_refl El) as Hends.
  apply Forall_cons in Hends as [Hfl _].
  pose proof (daysSince_bound (Date first) (Date lastT) ltac:(lia)) as Hb.
  unfold gapBound in Hb.
  assert (Hn : 0 < Z.of_nat (length (first :: second :: rest)) - 1).
  { simpl length. lia. }
  set (span := daysSince (Date first) (Date lastT)) in *.
  set (n := Z.of_nat (length (first :: second :: rest)) - 1) in *.
  assert (Hq : 0 <= Z.quot span n <= span).
  { rewrite Z.quot_div_nonneg by lia. split; [apply Z.div_pos; lia|].
    apply Z.div_le_upper_bound; nia. }
  cbv zeta. split; [lia|].
  destruct (Z.leb_spec (Z.quot span n) 8);
    [repeat split; intros; try reflexivity; try lia; discriminate|].
  destruct (Z.leb_spec (Z.quot span n) 35);
    [repeat split; intros; try reflexivity; try lia; discriminate|].
  destruct (Z.leb_spec (Z.quot span n) 95);
    repeat split; intros; try reflexivity; try lia; discriminate.
Qed.

(** X13: pending transactions and transactions with a negative amount
    have no influence on the result: detection on the whole list is
    detection on what is left of it without them. *)
Theorem skipped_transactions_ignored now (txns : list Transaction) :
  DetectRecurringTransactions now txns
  = DetectRecurringTransactions now
      (filter (fun t => skipped t = false) txns).
Proof.
  unfold DetectRecurringTransactions. f_equal. f_equal.
  apply map_eq. intros k. rewrite !groupTransactions_lookup.
  rewrite list_filter_filter_l by tauto. reflexivity.
Qed.

(** X14: what a reported subscription shows is one of the input
    transactions: it is not pending, its amount is not negative, it
    gives the merchant name, the amount, the category and the last
    charge date, and no transaction of the same group (not skipped,
    same key) is dated later. *)
Theorem subscription_from_latest_charge now (txns : list Transaction) sub :
  sub ∈ DetectRecurringTransactions now txns ->
  exists t,
    t ∈ txns
    /\ Pending t = false /\ PrimFloat.ltb (Amount t) 0%float = false
    /\ SubMerchantName sub = MerchantName t
    /\ SubAmount sub = Amount t
    /\ SubCategory sub = Category t
    /\ LastCharge sub = Date t
    /\ forall t', t' ∈ txns -> skipped t' = false ->
                  groupKey t' = groupKey t -> Date t' <= Date t.
Proof.
  intros Hin.
  apply DetectRecurringTransactions_elem in Hin as (k & grp & Hg & Hd).
  apply detectGroup_some in Hd as (Hlen & _ & first & rest & Es & ->).
  destruct (sortByDate_sorted grp) as [Hp Hs]. rewrite Es in Hp, Hs.
  apply group_members in Hg as [Hgrp _].
  assert (Hfirst : first ∈ grp) by (rewrite <- Hp; apply list_elem_of_here).
  rewrite Hgrp in Hfirst.
  apply list_elem_of_filter in Hfirst as [[Hsk Hk] Hft].
  exists first. split; [exact Hft|].
  unfold skipped in Hsk. apply orb_false_iff in Hsk as [Hpend Hamt].
  do 6 (split; [assumption || reflexivity|]).
  intros t' Ht' Hsk' Hk'.
  assert (Hin' : t' ∈ first :: rest).
  { rewrite Hp, Hgrp. apply list_elem_of_filter.
    split; [split; [exact Hsk' | congruence] | exact Ht']. }
  apply StronglySorted_inv in Hs as [_ Hall].
  apply elem_of_cons in Hin' as [->|Hin']; [lia|].
  rewrite Forall_forall in Hall. apply Hall. exact Hin'.
Qed.

(** The key a subscription is reported under. *)
Lemma detectGroup_key now (txns grp : list Transaction) k sub :
  groupTransactions txns !! k = Some grp ->
  detectGroup now grp = Some sub ->
  ToLower (SubMerchantName sub) +:+ "_" +:+ Sprintf_2f (SubAmount sub) = k.
Proof.
  intros Hg Hd.
  apply detectGroup_some in Hd as (Hlen & _ & first & rest & Es & ->).
  destruct (sortByDate_sorted grp) as [Hp _]. rewrite Es in Hp.
  apply group_members in Hg as [Hgrp _].
  assert (Hfirst : first ∈ grp) by (rewrite <- Hp; apply list_elem_of_here).
  rewrite Hgrp in Hfirst.
  apply list_elem_of_filter in Hfirst as [[_ Hk] _]. exact Hk.
Qed.

Lemma omap_keys_NoDup {A B} (f : string * A -> option B) (key : B -> string)
    (l : list (string * A)) :
  NoDup (l.*1) ->
  (forall kv b, kv ∈ l -> f kv = Some b -> key b = kv.1) ->
  NoDup (key <$> omap f l).
Proof.
  induction l as [|kv l IH]; intros Hnd Hkey; [constructor|].
  cbn [fmap list_fmap] in Hnd. apply NoDup_cons in Hnd as [Hnotin Hnd].
  assert (IH' : NoDup (key <$> omap f l)).
  { apply IH; [exact Hnd|]. intros kv' b Hin. apply Hkey. right. exact Hin. }
  cbn [omap list_omap]. destruct (f kv) as [b|] eqn:Hf; [|exact IH'].
  cbn [fmap list_fmap]. apply NoDup_cons. split; [|exact IH'].
  intros Hin. apply list_elem_of_fmap in Hin as (b' & Hb' & Hin).
  apply list_elem_of_omap in Hin as (kv' & Hin & Hf').
  apply Hnotin. apply list_elem_of_fmap. exists kv'. split; [|exact Hin].
  rewrite <- (Hkey kv b (list_elem_of_here _ _) Hf).
  rewrite Hb'. apply Hkey; [right; exact Hin | exact Hf'].
Qed.

Lemma one_key now (txns : list Transaction) :
  NoDup ((fun sub => ToLower (SubMerchantName sub) +:+ "_"
                     +:+ Sprintf_2f (SubAmount sub))
         <$> DetectRecurringTransactions now txns).
Proof.
  unfold DetectRecurringTransactions. apply omap_keys_NoDup.
  - apply NoDup_fst_map_to_list.
  - intros [k grp] sub Hin Hd. apply elem_of_map_to_list in Hin.
    exact (detectGroup_key now txns grp k sub Hin Hd).
Qed.

(** X15: no key is reported twice: the reported subscriptions have
    pairwise different keys (lowercased merchant name and amount to two
    decimals), whatever the input; the report has no repetition, and
    two reported subscriptions with the same key are one and the same,
    the one of the group of that key. *)
Theorem one_subscription_per_key now (txns : list Transaction) :
  NoDup ((fun sub => ToLower (SubMerchantName sub) +:+ "_"
                     +:+ Sprintf_2f (SubAmount sub))
         <$> DetectRecurringTransactions now txns)
  /\ NoDup (DetectRecurringTransactions now txns)
  /\ forall sub sub',
       sub ∈ DetectRecurringTransactions now txns ->
       sub' ∈ DetectRecurringTransactions now txns ->
       ToLower (SubMerchantName sub) +:+ "_" +:+ Sprintf_2f (SubAmount sub)
       = ToLower (SubMerchantName sub') +:+ "_"
         +:+ Sprintf_2f (SubAmount sub') ->
       sub = sub'
       /\ exists grp,
            groupTransactions txns
              !! (ToLower (SubMerchantName sub) +:+ "_"
                  +:+ Sprintf_2f (SubAmount sub)) = Some grp
            /\ detectGroup now grp = Some sub.
Proof.
  pose proof (one_key now txns) as Hnd.
  split; [exact Hnd|]. split; [exact (NoDup_fmap_1 _ _ Hnd)|].
  intros sub sub' Hin Hin' Ek.
  apply DetectRecurringTransactions_elem in Hin as (k & grp & Hg & Hd).
  apply DetectRecurringTransactions_elem in Hin' as (k' & grp' & Hg' & Hd').
  rewrite (detectGroup_key now txns grp k sub Hg Hd) in Ek |- *.
  rewrite (detectGroup_key now txns grp' k' sub' Hg' Hd') in Ek.
  subst k'. rewrite Hg in Hg'. injection Hg' as <-.
  rewrite Hd in Hd'. injection Hd' as <-.
  split; [reflexivity|]. exists grp. auto.
Qed.

(** The groups share out the transactions that are not skipped. *)
Lemma group_sizes (txns : list Transaction) :
  sum_list_with (fun kv : string * list Transaction => length kv.2)
    (map_to_list (groupTransactions txns))
  = length (filter (fun t => skipped t = false) txns).
Proof.
  unfold groupTransactions.
  induction txns as [|t txns IH] using rev_ind.
  - cbn [foldl]. rewrite map_to_list_empty. reflexivity.
  - rewrite foldl_app, filter_app, length_app. cbn [foldl].
    unfold addToGroup at 1. destruct (skipped t) eqn:Hs.
    + rewrite filter_cons_False by congruence. rewrite filter_nil.
      simpl length. rewrite IH. lia.
    + rewrite filter_cons_True by exact Hs. rewrite filter_nil.
      simpl length. rewrite <- IH. cbv zeta.
      set (m := foldl addToGroup ∅ txns). set (k := groupKey t).
      destruct (m !! k) as [v|] eqn:Hk; cbn [default].
      * rewrite <- (insert_delete_eq m).
        rewrite map_to_list_insert by apply lookup_delete_eq.
        rewrite <- (map_to_list_delete m k v Hk).
        cbn [sum_list_with snd]. rewrite length_app. simpl length. lia.
      * rewrite map_to_list_insert by exact Hk.
        cbn [sum_list_with snd app length]. lia.
Qed.

Lemma omap_half {A B} (f : string * list A -> option B)
    (l : list (string * list A)) :
  (forall kv b, f kv = Some b -> (2 <= length kv.2)%nat) ->
  (2 * length (omap f l)
   <= sum_list_with (fun kv : string * list A => length kv.2) l)%nat.
Proof.
  intros Hf. induction l as [|kv l IH]; [simpl; lia|].
  cbn [omap list_omap sum_list_with]. destruct (f kv) as [b|] eqn:E.
  - specialize (Hf kv b E). simpl length. lia.
  - lia.
Qed.

(** X10: every reported subscription stands for at least two
    transactions of its own: there are at most half as many
    subscriptions as there are transactions that are neither pending
    nor negative. *)
Theorem at_most_half_as_many_subscriptions now (txns : list Transaction) :
  (2 * length (DetectRecurringTransactions now txns)
   <= length (filter (fun t => skipped t = false) txns))%nat
  /\ (2 * length (DetectRecurringTransactions now txns) <= length txns)%nat.
Proof.
  assert (H1 : (2 * length (DetectRecurringTransactions now txns)
                <= length (filter (fun t => skipped t = false) txns))%nat).
  { rewrite <- group_sizes. unfold DetectRecurringTransactions.
    apply omap_half. intros kv b Hd.
    apply detectGroup_some in Hd as [Hlen _]. exact Hlen. }
  split; [exact H1|].
  pose proof (length_filter (fun t => skipped t = false) txns). lia.
Qed.

(** What the verdict, the frequency and the next due date read of a
    sorted slice are its dates. *)
Lemma last_dates (a b : list Transaction) :
  Date <$> a = Date <$> b -> Date <$> last a = Date <$> last b.
Proof. intros E. rewrite <- !fmap_last, E. reflexivity. Qed.

Lemma avgDays_dates (a b : list Transaction) x y la lb :
  Date <$> (x :: a) = Date <$> (y :: b) ->
  last (x :: a) = Some la -> last (y :: b) = Some lb ->
  avgDays x la (length (x :: a)) = avgDays y lb (length (y :: b)).
Proof.
  intros E Ha Hb.
  pose proof (last_dates _ _ E) as El. rewrite Ha, Hb in El.
  injection El as El.
  assert (Hlen : length (x :: a) = length (y :: b)).
  { rewrite <- (length_fmap Date (x :: a)), E. apply length_fmap. }
  injection E as Ex _. unfold avgDays. rewrite Ex, El, Hlen. reflexivity.
Qed.

Lemma determineFrequency_dates (a b : list Transaction) :
  Date <$> a = Date <$> b -> determineFrequency a = determineFrequency b.
Proof.
  intros E. destruct a as [|x [|x2 a]], b as [|y [|y2 b]];
    try discriminate E; try reflexivity.
  unfold determineFrequency.
  destruct (last (x :: x2 :: a)) as [la|] eqn:Ha;
    [|apply last_None in Ha; discriminate].
  destruct (last (y :: y2 :: b)) as [lb|] eqn:Hb;
    [|apply last_None in Hb; discriminate].
  cbv zeta. rewrite (avgDays_dates _ _ _ _ _ _ E Ha Hb). reflexivity.
Qed.

Lemma predictNextDue_dates now (a b : list Transaction) :
  Date <$> a = Date <$> b -> predictNextDue now a = predictNextDue now b.
Proof.
  intros E. destruct a as [|x [|x2 a]], b as [|y [|y2 b]];
    try discriminate E; try reflexivity.
  unfold predictNextDue.
  destruct (last (x :: x2 :: a)) as [la|] eqn:Ha;
    [|apply last_None in Ha; discriminate].
  destruct (last (y :: y2 :: b)) as [lb|] eqn:Hb;
    [|apply last_None in Hb; discriminate].
  rewrite (avgDays_dates _ _ _ _ _ _ E Ha Hb).
  injection E as -> _. reflexivity.
Qed.

Lemma sortByDate_dates (a b : list Transaction) :
  a ≡ₚ b -> Date <$> sortByDate a = Date <$> sortByDate b.
Proof.
  intros Hp. destruct (sortByDate_sorted a) as [Hpa Hsa].
  destruct (sortByDate_sorted b) as [Hpb Hsb].
  apply latestFirst_dates; [exact Hsa | exact Hsb|].
  rewrite Hpa, Hpb. exact Hp.
Qed.

Lemma isRecurring_perm (a b : list Transaction) :
  a ≡ₚ b -> snd (isRecurring a) = snd (isRecurring b).
Proof.
  intros Hp. unfold isRecurring. rewrite (Permutation_length Hp).
  destruct (length b <? 2)%nat; [reflexivity|]. cbv zeta.
  rewrite (intervals_dates _ _ (sortByDate_dates a b Hp)).
  destruct (length (intervals (sortByDate b)) <? 1)%nat; reflexivity.
Qed.

(** A group given in another order: the same verdict, and the same
    frequency, last charge and next due date. *)
Lemma detectGroup_perm now (a b : list Transaction) sub :
  a ≡ₚ b -> detectGroup now a = Some sub ->
  exists sub',
    detectGroup now b = Some sub'
    /\ Frequency sub' = Frequency sub
    /\ LastCharge sub' = LastCharge sub
    /\ NextDue sub' = NextDue sub.
Proof.
  intros Hp Hd.
  apply detectGroup_some in Hd as (Hlen & Hrec & first & rest & Es & ->).
  rewrite (Permutation_length Hp) in Hlen.
  destruct (detectGroup_spec now b Hlen) as (first' & rest' & Es' & ->).
  rewrite <- (isRecurring_perm a b Hp), Hrec.
  pose proof (sortByDate_dates a b Hp) as Ed.
  eexists. split; [reflexivity|]. cbn.
  rewrite (determineFrequency_dates _ _ Ed).
  rewrite (predictNextDue_dates now _ _ Ed).
  rewrite Es, Es' in Ed. injection Ed as -> _. auto.
Qed.

Lemma groupTransactions_perm (a b grp : list Transaction) k :
  a ≡ₚ b -> groupTransactions a !! k = Some grp ->
  exists grp', groupTransactions b !! k = Some grp' /\ grp ≡ₚ grp'.
Proof.
  intros Hp Hg. apply group_members in Hg as [-> Hne].
  rewrite groupTransactions_lookup.
  pose proof (filter_Permutation
                (fun t => skipped t = false /\ groupKey t = k) _ _ Hp) as Hf.
  destruct (filter _ b) as [|t g] eqn:E.
  - apply Permutation_nil_r in Hf. contradiction.
  - exists (t :: g). split; [reflexivity | exact Hf].
Qed.

Lemma detected_perm now (a b : list Transaction) sub :
  a ≡ₚ b -> sub ∈ DetectRecurringTransactions now a ->
  exists sub',
    sub' ∈ DetectRecurringTransactions now b
    /\ ToLower (SubMerchantName sub') +:+ "_" +:+ Sprintf_2f (SubAmount sub')
       = ToLower (SubMerchantName sub) +:+ "_" +:+ Sprintf_2f (SubAmount sub)
    /\ Frequency sub' = Frequency sub
    /\ LastCharge sub' = LastCharge sub
    /\ NextDue sub' = NextDue sub.
Proof.
  intros Hp Hin.
  apply DetectRecurringTransactions_elem in Hin as (k & grp & Hg & Hd).
  destruct (groupTransactions_perm a b grp k Hp Hg) as (grp' & Hg' & Hpg).
  destruct (detectGroup_perm now grp grp' sub Hpg Hd)
    as (sub' & Hd' & Ef & El & En).
  exists sub'. split.
  - apply DetectRecurringTransactions_elem. exists k, grp'. auto.
  - rewrite (detectGroup_key now a grp k sub Hg Hd).
    rewrite (detectGroup_key now b grp' k sub' Hg' Hd'). auto.
Qed.

(** X12: the order in which the transactions are given does not matter
    to what is detected: given the same transactions in another order,
    the same keys are reported, each with the same frequency, last
    charge and next due date (the order of the report aside, which
    follows the iteration of a Go map). *)
Theorem detection_ignores_input_order now (txns txns' : list Transaction) :
  txns ≡ₚ txns' ->
  (fun sub => (ToLower (SubMerchantName sub) +:+ "_"
               +:+ Sprintf_2f (SubAmount sub),
               Frequency sub, LastCharge sub, NextDue sub))
    <$> DetectRecurringTransactions now txns
  ≡ₚ (fun sub => (ToLower (SubMerchantName sub) +:+ "_"
                  +:+ Sprintf_2f (SubAmount sub),
                  Frequency sub, LastCharge sub, NextDue sub))
       <$> DetectRecurringTransactions now txns'.
Proof.
  intros Hp.
  set (summary := fun sub : RecurringSubscription =>
         (ToLower (SubMerchantName sub) +:+ "_"
          +:+ Sprintf_2f (SubAmount sub),
          Frequency sub, LastCharge sub, NextDue sub)).
  assert (Hnd : forall l,
    NoDup (summary <$> DetectRecurringTransactions now l)).
  { intros l.
    apply (NoDup_fmap_1 (fun s : string * string * Time * Time => s.1.1.1)).
    rewrite <- list_fmap_compose. apply one_key. }
  assert (Hsub : forall a b, a ≡ₚ b -> forall x,
    x ∈ summary <$> DetectRecurringTransactions now a ->
    x ∈ summary <$> DetectRecurringTransactions now b).
  { intros a b Hab x Hx.
    apply list_elem_of_fmap in Hx as (sub & -> & Hin).
    destruct (detected_perm now a b sub Hab Hin)
      as (sub' & Hin' & Ek & Ef & El & En).
    apply list_elem_of_fmap. exists sub'. split; [|exact Hin'].
    unfold summary. rewrite Ek, Ef, El, En. reflexivity. }
  apply NoDup_Permutation; [apply Hnd | apply Hnd|].
  intros x. split; apply Hsub; [exact Hp | symmetry; exact Hp].
Qed.

End More.

Lemma detection_ignores_clock_witness :
  @DetectRecurringTransactions asciiLib 0 history
  = @DetectRecurringTransactions asciiLib 20000 history.
Proof. apply detection_ignores_clock. Defined.

Lemma subscription_from_latest_charge_witness :
  exists t,
    t ∈ history
    /\ Pending t = false /\ PrimFloat.ltb (Amount t) 0%float = false
    /\ SubMerchantName spotifySubscription = MerchantName t
    /\ SubAmount spotifySubscription = Amount t
    /\ SubCategory spotifySubscription = Category t
    /\ LastCharge spotifySubscription = Date t
    /\ forall t', t' ∈ history -> @skipped t' = false ->
                  @groupKey asciiLib t' = @groupKey asciiLib t ->
                  Date t' <= Date t.
Proof.
  apply (@subscription_from_latest_charge asciiLib 20000 history).
  vm_compute. apply list_elem_of_here.
Defined.

Lemma detection_ignores_input_order_witness :
  (fun sub => (lowerString (SubMerchantName sub) +:+ "_"
               +:+ format2f (SubAmount sub),
               Frequency sub, LastCharge sub, NextDue sub))
    <$> @DetectRecurringTransactions asciiLib 20000 history
  ≡ₚ (fun sub => (lowerString (SubMerchantName sub) +:+ "_"
                  +:+ format2f (SubAmount sub),
                  Frequency sub, LastCharge sub, NextDue sub))
       <$> @DetectRecurringTransactions asciiLib 20000 (reverse history).
Proof.
  apply (@detection_ignores_input_order asciiLib 20000 history
           (reverse history)).
  symmetry. apply reverse_Permutation.
Defined.

Lemma next_due_matches_frequency_witness :
  let gap := NextDue spotifySubscription - LastCharge spotifySubscription in
  0 <= gap <= maxDurationDays
  /\ (Frequency spotifySubscription = "weekly" <-> gap <= 8)
  /\ (Frequency spotifySubscription = "monthly" <-> 9 <= gap <= 35)
  /\ (Frequency spotifySubscription = "quarterly" <-> 36 <= gap <= 95)
  /\ (Frequency spotifySubscription = "yearly" <-> 96 <= gap).
Proof.
  apply (@next_due_matches_frequency asciiLib 20000 history).
  vm_compute. apply list_elem_of_here.
Defined.

End PlaidMore.

(** ** Storing what a sync finds *)
Module SyncFacts.
Import GoInt GoIntFacts Estimate Plaid PlaidFacts Sync.
Local Open Scope Z_scope.

Section SyncFacts.
Context `{GoLib}.
Variable truncate : float -> Z.
Variable exec : list Stmt -> Stmt -> option string.

Lemma detected_frequency now (txns : list Transaction) sub :
  sub ∈ DetectRecurringTransactions now txns ->
  Frequency sub ∈ ["weekly"; "monthly"; "quarterly"; "yearly"].
Proof.
  intros Hin.
  apply DetectRecurringTransactions_elem in Hin as (k & grp & _ & Hd).
  apply detectGroup_some in Hd as (Hlen & _ & first & rest & _ & ->).
  cbn [Frequency].
  destruct (determineFrequency_cases (sortByDate grp)) as [[Hlt _]|[_ Hc]];
    [|exact Hc].
  destruct (sortByDate_sorted grp) as [Hp _].
  apply Permutation_length in Hp. lia.
Qed.

Lemma detected_cadence now (txns : list Transaction) sub :
  sub ∈ DetectRecurringTransactions now txns ->
  (Frequency sub, frequencyToDays (Frequency sub))
    ∈ [("weekly", 7); ("monthly", 30); ("quarterly", 90); ("yearly", 365)].
Proof.
  intros Hin. pose proof (detected_frequency now txns sub Hin) as Hf.
  repeat (apply elem_of_cons in Hf as [->|Hf]; [set_solver|]).
  apply elem_of_nil in Hf. contradiction.
Qed.

(** X17: the default branch of [frequencyToDays] is never taken for a
    detected subscription: its frequency and the cadence stored for it
    are "weekly" and 7, "monthly" and 30, "quarterly" and 90 or "yearly"
    and 365; so the cadence check of [CreateSubscription] never rejects
    it, only an empty merchant name or an amount that is not positive
    in cents does. *)
Theorem cadence_of_detected now (txns : list Transaction) sub :
  sub ∈ DetectRecurringTransactions now txns ->
  (Frequency sub, frequencyToDays (Frequency sub))
    ∈ [("weekly", 7); ("monthly", 30); ("quarterly", 90); ("yearly", 365)]
  /\ invalid (toSubscription truncate sub)
     = String.eqb (SubMerchantName sub) ""
       || (truncate (PrimFloat.mul (SubAmount sub) 100%float) <=? 0).
Proof.
  intros Hin. pose proof (detected_cadence now txns sub Hin) as Hc.
  split; [exact Hc|]. unfold invalid, toSubscription.
  cbn [Merchant AmountCents CadenceDays].
  assert (Hpos : 0 < frequencyToDays (Frequency sub)).
  { repeat (apply elem_of_cons in Hc as [[= _ ->]|Hc]; [lia|]).
    apply elem_of_nil in Hc. contradiction. }
  destruct (Z.leb_spec (frequencyToDays (Frequency sub)) 0); [lia|].
  apply orb_false_r.
Qed.

(** *** The two loops *)

Lemma storeTransactions_ok log (txns : list Transaction) :
  (forall l t, t ∈ txns -> exec l (transactionInsert truncate t) = None) ->
  storeTransactions truncate exec log txns
  = (log ++ (transactionInsert truncate <$> txns), None).
Proof.
  revert log. induction txns as [|t txns IH]; intros log Hexec.
  - cbn. rewrite app_nil_r. reflexivity.
  - cbn [storeTransactions]. unfold ExecContext.
    rewrite (Hexec log t) by apply list_elem_of_here.
    rewrite IH by (intros l t' Ht'; apply Hexec; right; exact Ht').
    rewrite <- app_assoc. reflexivity.
Qed.

Lemma storeTransactions_none log (txns : list Transaction) :
  snd (storeTransactions truncate exec log txns) = None ->
  fst (storeTransactions truncate exec log txns)
  = log ++ (transactionInsert truncate <$> txns).
Proof.
  revert log. induction txns as [|t txns IH]; intros log.
  - cbn. rewrite app_nil_r. reflexivity.
  - cbn [storeTransactions]. unfold ExecContext.
    destruct (exec log (transactionInsert truncate t)); [discriminate|].
    intros Hn. rewrite (IH _ Hn), <- app_assoc. reflexivity.
Qed.

Lemma storeTransactions_err log (txns : list Transaction) e :
  snd (storeTransactions truncate exec log txns) = Some e ->
  exists before txn after,
    txns = before ++ txn :: after
    /\ fst (storeTransactions truncate exec log txns)
       = log ++ (transactionInsert truncate <$> before)
             ++ [transactionInsert truncate txn]
    /\ exec (log ++ (transactionInsert truncate <$> before))
            (transactionInsert truncate txn) = Some e.
Proof.
  revert log. induction txns as [|t txns IH]; intros log; [discriminate|].
  cbn [storeTransactions]. unfold ExecContext.
  destruct (exec log (transactionInsert truncate t)) as [e0|] eqn:E.
  - intros [= ->]. exists [], t, txns. cbn. rewrite app_nil_r. auto.
  - intros He. destruct (IH _ He) as (before & txn & after & -> & Hf & Hx).
    exists (t :: before), txn, after. cbn [fmap list_fmap].
    split; [reflexivity|]. split.
    + rewrite Hf, <- app_assoc. reflexivity.
    + rewrite <- Hx. f_equal. rewrite <- app_assoc. reflexivity.
Qed.

Lemma storeSubscriptions_log log (subs : list RecurringSubscription) :
  storeSubscriptions truncate exec log subs
  = log ++ (subscriptionInsert
              <$> filter (fun s => invalid s = false)
                    (toSubscription truncate <$> subs)).
Proof.
  revert log. induction subs as [|sub subs IH]; intros log.
  - cbn. rewrite app_nil_r. reflexivity.
  - cbn [storeSubscriptions fmap list_fmap]. unfold CreateSubscription.
    destruct (invalid (toSubscription truncate sub)) eqn:Hv.
    + rewrite filter_cons_False by congruence. apply IH.
    + rewrite filter_cons_True by exact Hv. unfold ExecContext.
      destruct (exec log _); rewrite IH, <- app_assoc; reflexivity.
Qed.

(** X18: when the database accepts every transaction, the sync returns
    no error, whatever becomes of the subscriptions: it has sent one
    insert per transaction, in the order given, and then one insert per
    detected subscription that has a merchant name and a positive
    amount in cents; whether those inserts fail is not looked at. *)
Theorem sync_ignores_subscription_errors now log (txns : list Transaction) :
  (forall l t, t ∈ txns -> exec l (transactionInsert truncate t) = None) ->
  syncAccountsAndTransactions truncate exec now log (Got txns)
  = (log ++ (transactionInsert truncate <$> txns)
         ++ (subscriptionInsert
               <$> filter (fun s => invalid s = false)
                     (toSubscription truncate
                        <$> DetectRecurringTransactions now txns)),
     None).
Proof.
  intros Hexec. unfold syncAccountsAndTransactions.
  rewrite (storeTransactions_ok log txns Hexec).
  rewrite storeSubscriptions_log, <- app_assoc. reflexivity.
Qed.

(** X19: when the sync returns an error, that error is the one of
    fetching the transactions, with nothing sent to the database, or
    the one of a transaction insert, which is then the last statement
    sent: the transactions before it are stored, those after it are
    not, and no subscription is. *)
Theorem sync_error_stops_the_sync now log got e :
  snd (syncAccountsAndTransactions truncate exec now log got) = Some e ->
  (got = Failed e
   /\ fst (syncAccountsAndTransactions truncate exec now log got) = log)
  \/ exists before txn after,
       got = Got (before ++ txn :: after)
       /\ fst (syncAccountsAndTransactions truncate exec now log got)
          = log ++ (transactionInsert truncate <$> before)
                ++ [transactionInsert truncate txn]
       /\ exec (log ++ (transactionInsert truncate <$> before))
               (transactionInsert truncate txn) = Some e.
Proof.
  unfold syncAccountsAndTransactions. destruct got as [txns|e0].
  - destruct (storeTransactions truncate exec log txns) as [log' err] eqn:Es.
    destruct err as [e1|]; [|discriminate]. cbn [fst snd]. intros [= ->].
    pose proof (storeTransactions_err log txns e) as Herr.
    rewrite Es in Herr.
    destruct (Herr eq_refl) as (before & txn & after & -> & Hf & Hx).
    right. exists before, txn, after. auto.
  - cbn. intros [= ->]. left. auto.
Qed.

(** X20: a sync only adds to what the database has been sent, and what
    it adds is: inserts of transactions with source "plaid", each for a
    transaction that was fetched, and inserts of subscriptions with a
    merchant name, a positive amount in cents, a cadence of 7, 30, 90
    or 365 days and a next due date, each for a detected
    subscription. *)
Theorem sync_sends_valid_rows now log (txns : list Transaction) :
  exists new,
    fst (syncAccountsAndTransactions truncate exec now log (Got txns))
    = log ++ new
    /\ Forall
         (fun stmt =>
            match stmt with
            | InsertTransaction source ext_id _ _ _ _ =>
                source = "plaid" /\ exists t, t ∈ txns /\ ext_id = ID t
            | InsertSubscription merchant amount_cents cadence_days next_due =>
                merchant <> "" /\ 0 < amount_cents
                /\ cadence_days ∈ [7; 30; 90; 365]
                /\ exists sub,
                     sub ∈ DetectRecurringTransactions now txns
                     /\ merchant = SubMerchantName sub
                     /\ cadence_days = frequencyToDays (Frequency sub)
                     /\ next_due = Some (Plaid.NextDue sub)
            end) new.
Proof.
  assert (Htx : forall l : list Transaction, l ⊆ txns ->
    Forall
      (fun stmt =>
         match stmt with
         | InsertTransaction source ext_id _ _ _ _ =>
             source = "plaid" /\ exists t, t ∈ txns /\ ext_id = ID t
         | InsertSubscription merchant amount_cents cadence_days next_due =>
             merchant <> "" /\ 0 < amount_cents
             /\ cadence_days ∈ [7; 30; 90; 365]
             /\ exists sub,
                  sub ∈ DetectRecurringTransactions now txns
                  /\ merchant = SubMerchantName sub
                  /\ cadence_days = frequencyToDays (Frequency sub)
                  /\ next_due = Some (Plaid.NextDue sub)
         end) (transactionInsert truncate <$> l)).
  { intros l Hl. apply Forall_fmap, Forall_forall. intros t Ht. cbn.
    split; [reflexivity|]. exists t. split; [apply Hl, Ht | reflexivity]. }
  unfold syncAccountsAndTransactions.
  destruct (storeTransactions truncate exec log txns) as [log' err] eqn:Es.
  destruct err as [e|]; cbn [fst].
  - pose proof (storeTransactions_err log txns e) as Herr. rewrite Es in Herr.
    destruct (Herr eq_refl) as (before & txn & after & E & Hf & _).
    cbn [fst] in Hf. exists (transactionInsert truncate <$> before ++ [txn]).
    rewrite fmap_app. split; [exact Hf|]. rewrite <- fmap_app.
    apply Htx. rewrite E. intros x Hx.
    apply elem_of_app in Hx as [Hx|Hx]; apply elem_of_app; [left; exact Hx|].
    right. apply list_elem_of_singleton in Hx as ->. apply list_elem_of_here.
  - pose proof (storeTransactions_none log txns) as Hn. rewrite Es in Hn.
    cbn [fst snd] in Hn. rewrite (Hn eq_refl), storeSubscriptions_log.
    eexists. split; [rewrite <- app_assoc; reflexivity|].
    apply Forall_app. split; [apply Htx; reflexivity|].
    apply Forall_fmap, Forall_forall. intros s Hs.
    apply list_elem_of_filter in Hs as [Hv Hs].
    apply list_elem_of_fmap in Hs as (sub & -> & Hin).
    pose proof (detected_cadence now txns sub Hin) as Hc.
    unfold invalid in Hv. apply orb_false_iff in Hv as [Hv _].
    apply orb_false_iff in Hv as [Hm Ha].
    cbn [Merchant AmountCents] in Hm, Ha. cbn.
    split; [apply String.eqb_neq; exact Hm|].
    split; [apply Z.leb_gt; exact Ha|]. split.
    + repeat (apply elem_of_cons in Hc as [[= _ ->]|Hc]; [set_solver|]).
      apply elem_of_nil in Hc. contradiction.
    + exists sub. auto.
Qed.

End SyncFacts.

Lemma cadence_of_detected_witness :
  (Frequency spotifySubscription,
   frequencyToDays (Frequency spotifySubscription))
    ∈ [("weekly", 7); ("monthly", 30); ("quarterly", 90); ("yearly", 365)]
  /\ invalid (toSubscription truncateFloat spotifySubscription)
     = String.eqb (SubMerchantName spotifySubscription) ""
       || (truncateFloat
             (PrimFloat.mul (SubAmount spotifySubscription) 100%float) <=? 0).
Proof.
  apply (@cadence_of_detected asciiLib truncateFloat 20000 history).
  vm_compute. apply list_elem_of_here.
Defined.

Lemma sync_ignores_subscription_errors_witness :
  @syncAccountsAndTransactions asciiLib truncateFloat refusingSubscriptions
    20000 [] (Got history)
  = ([] ++ (transactionInsert truncateFloat <$> history)
        ++ (subscriptionInsert
              <$> filter (fun s => invalid s = false)
                    (toSubscription truncateFloat
                       <$> @DetectRecurringTransactions asciiLib 20000
                             history)),
     None).
Proof.
  apply (@sync_ignores_subscription_errors asciiLib truncateFloat
           refusingSubscriptions 20000 [] history).
  intros l t _. reflexivity.
Defined.

Lemma sync_error_stops_the_sync_witness :
  (Got history = Failed "connection lost"
   /\ fst (@syncAccountsAndTransactions asciiLib truncateFloat failingThird
             20000 [] (Got history)) = [])
  \/ exists before txn after,
       Got history = Got (before ++ txn :: after)
       /\ fst (@syncAccountsAndTransactions asciiLib truncateFloat
                 failingThird 20000 [] (Got history))
          = [] ++ (transactionInsert truncateFloat <$> before)
               ++ [transactionInsert truncateFloat txn]
       /\ failingThird ([] ++ (transactionInsert truncateFloat <$> before))
            (transactionInsert truncateFloat txn) = Some "connection lost".
Proof.
  apply (@sync_error_stops_the_sync asciiLib truncateFloat failingThird
           20000 [] (Got history) "connection lost").
  vm_compute. reflexivity.
Defined.

End SyncFacts.
